(** * Noise-Error-Modeling-Lab: the simulation core of [QuantumSimulator]

    A shallow embedding of the TypeScript class [QuantumSimulator]
    (state-vector evolution, phenomenological noise model, fidelity) together
    with the properties its specification states about it.

    Modelling conventions.
    - A JavaScript [number] that holds an amplitude or a probability is a
      real number ([R]): rounding, NaN and the infinities of IEEE doubles are
      not represented.  [Math.sqrt] is [sqrt], [Math.min] is [Rmin],
      [Math.pow] with a gate count as exponent is [pow].
    - A [number] used as an index, a qubit position or a time step is an
      integer ([Z], or [nat] for a loop counter).  The bit operators
      [<<], [^] and [&] work on 32-bit signed integers as in ECMAScript; the
      wrap-around is written out in module [JS].
    - An array is a list.  Reading an array outside its bounds yields
      [undefined] in JavaScript and writing outside them grows the array;
      in both cases the array stops being an array of amplitudes (and the
      Hadamard branch throws a [TypeError]).  The embedding runs array code
      in the [option] monad and answers [None] at the first such access. *)

From Stdlib Require Import Reals Lra Lia ZArith Ascii String Sorted.
From stdpp Require Import gmap strings list.

(** ** ECMAScript integer operators *)

Module JS.

Local Open Scope Z_scope.

(** [ToInt32]: reduction modulo 2^32 into [-2^31, 2^31). *)
Definition toInt32 (z : Z) : Z := (z + 2 ^ 31) mod 2 ^ 32 - 2 ^ 31.

(** [a << b]: the shift count is taken modulo 32. *)
Definition shl (a b : Z) : Z := toInt32 (Z.shiftl (toInt32 a) (b mod 32)).

(** [a ^ b] *)
Definition xor (a b : Z) : Z := Z.lxor (toInt32 a) (toInt32 b).

(** [a & b] *)
Definition and (a b : Z) : Z := Z.land (toInt32 a) (toInt32 b).

(** [arr[j]] as a read: [None] stands for [undefined]. *)
Definition get {A} (arr : list A) (j : Z) : option A :=
  if 0 <=? j then arr !! Z.to_nat j else None.

(** [arr[j] = v] inside the bounds of [arr]; outside them the array would
    grow (or gain a property), which is reported as [None]. *)
Definition set {A} (arr : list A) (j : Z) (v : A) : option (list A) :=
  if (0 <=? j) && (j <? Z.of_nat (length arr))
  then Some (<[Z.to_nat j := v]> arr) else None.

(** [for (let i = start; i < start + n; i++) body], threading the loop
    state [s] and stopping at the first failure. *)
Fixpoint for_from {S} (body : nat → S → option S) (start n : nat) (s : S)
  : option S :=
  match n with
  | O => Some s
  | Datatypes.S n' => s' ← body start s; for_from body (Datatypes.S start) n' s'
  end.

(** [for (let i = 0; i < n; i++) body] *)
Definition for_ {S} (n : nat) (body : nat → S → option S) (s : S) : option S :=
  for_from body 0 n s.

End JS.

(** ** types.ts *)

Module GateType.
Inductive t := H | X | Y | Z | CNOT | I.
End GateType.

Module NoiseType.
Inductive t :=
  DEPOLARIZING | AMPLITUDE_DAMPING | PHASE_DAMPING | BIT_FLIP | PHASE_FLIP.
End NoiseType.

(** [interface Gate]; [control] is the optional field. *)
Record Gate := mkGate {
  id : string;
  type : GateType.t;
  qubit : Z;
  control : option Z;
  time : Z
}.

(** [interface NoiseConfig]; its [type] field is [noise_type] here, the name
    [type] being taken by [Gate]. *)
Record NoiseConfig := mkNoise {
  noise_type : NoiseType.t;
  probability : R
}.

(** [{real: number, imag: number}] *)
Record Amp := mkAmp { real : R; imag : R }.

(** [interface SimulationResult] *)
Record SimulationResult := mkResult {
  probabilities : gmap string R;
  noisyProbabilities : gmap string R;
  fidelity : R;
  qubitCount : nat
}.

(** ** QuantumSimulator.applyGate *)

(** The swap of [newAmps[i]] and [newAmps[target]] through [temp]. *)
Definition swap (newAmps : list Amp) (i target : Z) : option (list Amp) :=
  temp ← JS.get newAmps i;
  other ← JS.get newAmps target;
  newAmps ← JS.set newAmps i other;
  JS.set newAmps target temp.

(** Body of the loop of the [GateType.X] branch. *)
Definition X_body (g : Gate) (i : nat) (newAmps : list Amp) : option (list Amp) :=
  let mask := JS.shl 1 (qubit g) in
  let target := JS.xor (Z.of_nat i) mask in
  if (Z.of_nat i <? target)%Z then swap newAmps (Z.of_nat i) target
  else Some newAmps.

Definition invSqrt2 : R := (1 / sqrt 2)%R.

(** The two object literals of the Hadamard branch; both read the argument
    array [amplitudes], never [newAmps]. *)
Definition H_low (amplitudes : list Amp) (low high : Z) : option Amp :=
  l ← JS.get amplitudes low;
  h ← JS.get amplitudes high;
  Some {| real := (real l + real h) * invSqrt2;
          imag := (imag l + imag h) * invSqrt2 |}%R.

Definition H_high (amplitudes : list Amp) (low high : Z) : option Amp :=
  l ← JS.get amplitudes low;
  h ← JS.get amplitudes high;
  Some {| real := (real l - real h) * invSqrt2;
          imag := (imag l - imag h) * invSqrt2 |}%R.

(** Body of the loop of the [GateType.H] branch; the loop state is
    [newAmps] and the set [processed]. *)
Definition H_body (amplitudes : list Amp) (mask : Z) (i : nat)
    (st : list Amp * gset Z) : option (list Amp * gset Z) :=
  let '(newAmps, processed) := st in
  if decide (Z.of_nat i ∈ processed) then Some st
  else
    let j := JS.xor (Z.of_nat i) mask in
    let isSet := negb (JS.and (Z.of_nat i) mask =? 0)%Z in
    let low := if isSet then j else Z.of_nat i in
    let high := if isSet then Z.of_nat i else j in
    vlow ← H_low amplitudes low high;
    newAmps ← JS.set newAmps low vlow;
    vhigh ← H_high amplitudes low high;
    newAmps ← JS.set newAmps high vhigh;
    Some (newAmps, {[high]} ∪ ({[low]} ∪ processed)).

(** Body of the loop of the [GateType.CNOT] branch. *)
Definition CNOT_body (controlMask targetMask : Z) (i : nat)
    (newAmps : list Amp) : option (list Amp) :=
  if negb (JS.and (Z.of_nat i) controlMask =? 0)%Z then
    let target := JS.xor (Z.of_nat i) targetMask in
    if (Z.of_nat i <? target)%Z then swap newAmps (Z.of_nat i) target
    else Some newAmps
  else Some newAmps.

Definition applyGate (amplitudes : list Amp) (gate : Gate) : option (list Amp) :=
  let newAmps := amplitudes in
  let states := length amplitudes in
  match type gate, control gate with
  | GateType.X, _ => JS.for_ states (X_body gate) newAmps
  | GateType.H, _ =>
      let mask := JS.shl 1 (qubit gate) in
      fst <$> JS.for_ states (H_body amplitudes mask) (newAmps, ∅)
  | GateType.CNOT, Some c =>
      let controlMask := JS.shl 1 c in
      let targetMask := JS.shl 1 (qubit gate) in
      JS.for_ states (CNOT_body controlMask targetMask) newAmps
  | _, _ => Some newAmps
  end.

(** ** QuantumSimulator.applyNoiseModel *)

Section Noise.
Local Open Scope R_scope.

(** [result.reduce((a, b) => a + b, 0)] *)
Definition sum (result : list R) : R := fold_left Rplus result 0.

(** [const totalError = 1 - Math.pow(1 - p, Math.max(1, gateCount))] *)
Definition totalError (p : R) (gateCount : nat) : R :=
  1 - (1 - p) ^ Nat.max 1 gateCount.

(** One iteration of the [BIT_FLIP] loop: it reads and writes the same
    array [result].  Both indices are inside the array for [i < states],
    so the default of [nth] is never used. *)
Definition BIT_FLIP_body (states : nat) (flipAmount : R)
    (result : list R) (i : nat) : list R :=
  let flipped := ((states - 1) - i)%nat in
  <[i := nth i result 0 * (1 - flipAmount) + nth flipped result 0 * flipAmount]>
    result.

(** One iteration of the [AMPLITUDE_DAMPING] loop. *)
Definition AMPLITUDE_DAMPING_body (decay : R) (result : list R) (i : nat)
  : list R :=
  <[i := nth i result 0 * (1 - decay)]> result.

(** The part of [applyNoiseModel] before the renormalisation: the value of
    [result] when [sum] is computed.  (On the empty array the
    [AMPLITUDE_DAMPING] branch of the source stores NaN at index 0; an array
    of probabilities has [2 ^ numQubits >= 1] entries.) *)
Definition perturb (ideal : list R) (noise : NoiseConfig) (gateCount : nat)
  : list R :=
  let p := probability noise in
  let states := length ideal in
  let result := ideal in
  let totalError := totalError p gateCount in
  match noise_type noise with
  | NoiseType.DEPOLARIZING =>
      let uniform := 1 / INR states in
      map (fun val => val * (1 - totalError) + uniform * totalError) result
  | NoiseType.BIT_FLIP =>
      let flipAmount := totalError * 0.4 in
      fold_left (BIT_FLIP_body states flipAmount) (seq 0 states) result
  | NoiseType.AMPLITUDE_DAMPING =>
      let decay := totalError * 0.8 in
      let result := <[0%nat := nth 0 result 0 + (1 - nth 0 result 0) * decay]> result in
      fold_left (AMPLITUDE_DAMPING_body decay) (seq 1 (states - 1)) result
  | _ =>
      map (fun val => val * (1 - totalError) + (1 / INR states) * totalError)
        result
  end.

(** [sum || 1]: zero is the only falsy real. *)
Definition or_1 (sum : R) : R := if Req_dec_T sum 0 then 1 else sum.

Definition applyNoiseModel (ideal : list R) (noise : NoiseConfig)
    (gateCount : nat) : list R :=
  let result := perturb ideal noise gateCount in
  let sum := sum result in
  map (fun v => v / or_1 sum) result.

(** ** QuantumSimulator.calculateFidelity *)

(** [noisy[i]] is read for every index of [ideal]; the two arrays have the
    same length in every call, so the default of [nth] is never used. *)
Definition calculateFidelity (ideal noisy : list R) : R :=
  let overlap :=
    fold_left (fun overlap i => overlap + sqrt (nth i ideal 0 * nth i noisy 0))
      (seq 0 (length ideal)) 0 in
  Rmin 1 (overlap * overlap).

End Noise.

(** ** QuantumSimulator.toDict *)

(** [i.toString(2)] for a non-negative integer [i]. *)
Fixpoint toString2_pos (p : positive) (acc : string) : string :=
  match p with
  | xH => String "1"%char acc
  | xO p' => toString2_pos p' (String "0"%char acc)
  | xI p' => toString2_pos p' (String "1"%char acc)
  end.

Definition toString2 (i : nat) : string :=
  match N.of_nat i with
  | N0 => "0"%string
  | Npos p => toString2_pos p EmptyString
  end.

(** [s.padStart(n, '0')] *)
Fixpoint zeros (k : nat) (s : string) : string :=
  match k with
  | O => s
  | S k' => String "0"%char (zeros k' s)
  end.

Definition padStart0 (n : nat) (s : string) : string :=
  zeros (n - String.length s) s.

Definition toDict (numQubits : nat) (probs : list R) : gmap string R :=
  fold_left
    (fun dict '(i, p) =>
       let bitstring := padStart0 numQubits (toString2 i) in
       <[bitstring := p]> dict)
    (imap pair probs) ∅.

(** ** QuantumSimulator.simulate *)

(** [[...gates].sort((a, b) => a.time - b.time)]: [Array.prototype.sort] is
    stable, so its result is the one of this insertion sort, which puts a
    gate before the first later gate that it does not follow in time. *)
Fixpoint insert_by_time (a : Gate) (sorted : list Gate) : list Gate :=
  match sorted with
  | [] => [a]
  | b :: rest =>
      if (time a - time b <=? 0)%Z then a :: b :: rest
      else b :: insert_by_time a rest
  end.

Definition sort_by_time (gates : list Gate) : list Gate :=
  foldr insert_by_time [] gates.

(** [for (const gate of sortedGates) idealAmplitudes = applyGate(...)] *)
Fixpoint for_of (sortedGates : list Gate) (idealAmplitudes : list Amp)
  : option (list Amp) :=
  match sortedGates with
  | [] => Some idealAmplitudes
  | gate :: rest =>
      idealAmplitudes ← applyGate idealAmplitudes gate; for_of rest idealAmplitudes
  end.

(** The amplitudes after the gate loop of [simulate]. *)
Definition idealAmplitudes (numQubits : nat) (gates : list Gate)
  : option (list Amp) :=
  let states := (2 ^ numQubits)%nat in
  let sortedGates := sort_by_time gates in
  let idealAmplitudes := replicate states {| real := 0; imag := 0 |} in
  let idealAmplitudes := <[0%nat := {| real := 1; imag := 0 |}]> idealAmplitudes in
  for_of sortedGates idealAmplitudes.

(** [amp.real ** 2 + amp.imag ** 2] *)
Definition prob (amp : Amp) : R := (real amp ^ 2 + imag amp ^ 2)%R.

Definition simulate (numQubits : nat) (gates : list Gate) (noise : NoiseConfig)
  : option SimulationResult :=
  idealAmplitudes ← idealAmplitudes numQubits gates;
  let idealProbs := map prob idealAmplitudes in
  let noisyDist := applyNoiseModel idealProbs noise (length gates) in
  let fidelity := calculateFidelity idealProbs noisyDist in
  Some {| probabilities := toDict numQubits idealProbs;
          noisyProbabilities := toDict numQubits noisyDist;
          fidelity := fidelity;
          qubitCount := numQubits |}.

(** * Properties *)

(** ** Facts on the integer operators *)

Section JS_facts.
Local Open Scope Z_scope.

Lemma toInt32_small z : - 2 ^ 31 <= z < 2 ^ 31 → JS.toInt32 z = z.
Proof. intros Hz. unfold JS.toInt32. rewrite Z.mod_small; lia. Qed.

Lemma toInt32_range z : - 2 ^ 31 <= JS.toInt32 z < 2 ^ 31.
Proof.
  unfold JS.toInt32.
  pose proof (Z.mod_pos_bound (z + 2 ^ 31) (2 ^ 32)). lia.
Qed.

(** [ToInt32] never increases a non-negative number. *)
Lemma toInt32_le z : 0 <= z → JS.toInt32 z <= z.
Proof.
  intros Hz. unfold JS.toInt32.
  pose proof (Z.mod_le (z + 2 ^ 31) (2 ^ 32)). lia.
Qed.

(** [1 << q] is a power of two below 2^31, or the sign bit. *)
Lemma shl_1 q :
  let k := q mod 32 in
  (k < 31 ∧ JS.shl 1 q = 2 ^ k) ∨ (k = 31 ∧ JS.shl 1 q = - 2 ^ 31).
Proof.
  intros k. unfold JS.shl. fold k.
  assert (0 <= k < 32) as Hk by (apply Z.mod_pos_bound; lia).
  rewrite (toInt32_small 1) by lia.
  rewrite Z.shiftl_1_l.
  destruct (Z.eq_dec k 31) as [->|Hne].
  - right. split; [done|]. reflexivity.
  - left. split; [lia|]. apply toInt32_small.
    assert (2 ^ k <= 2 ^ 30) by (apply Z.pow_le_mono_r; lia).
    assert (0 < 2 ^ k) by (apply Z.pow_pos_nonneg; lia). lia.
Qed.

Lemma shl_1_valid q : 0 <= q < 31 → JS.shl 1 q = 2 ^ q.
Proof.
  intros Hq. destruct (shl_1 q) as [[_ H]|[H _]];
    rewrite Z.mod_small in H by lia; [done | lia].
Qed.

(** The bit [q] of [i] decides what [i & 2^q] and [i ^ 2^q] are. *)
Lemma land_pow2 i q :
  0 <= q →
  Z.land i (2 ^ q) = if Z.testbit i q then 2 ^ q else 0.
Proof.
  intros Hq. apply Z.bits_inj'. intros m Hm.
  rewrite Z.land_spec, Z.pow2_bits_eqb by done.
  destruct (Z.eqb_spec q m) as [->|Hne].
  - destruct (Z.testbit i m) eqn:E; simpl.
    + by rewrite Z.pow2_bits_true.
    + by rewrite Z.bits_0.
  - rewrite andb_false_r.
    destruct (Z.testbit i q); [|by rewrite Z.bits_0].
    rewrite Z.pow2_bits_false; [done | lia].
Qed.

Lemma lxor_pow2 i q :
  0 <= q →
  Z.lxor i (2 ^ q) = if Z.testbit i q then i - 2 ^ q else i + 2 ^ q.
Proof.
  intros Hq. destruct (Z.testbit i q) eqn:E.
  - assert (Z.land (Z.lxor i (2 ^ q)) (2 ^ q) = 0) as H0.
    { rewrite land_pow2 by done.
      by rewrite Z.lxor_spec, E, Z.pow2_bits_true. }
    apply Z.add_nocarry_lxor in H0.
    rewrite Z.lxor_assoc, Z.lxor_nilpotent, Z.lxor_0_r in H0. lia.
  - symmetry. apply Z.add_nocarry_lxor.
    rewrite land_pow2 by done. by rewrite E.
Qed.

(** On a negative 32-bit integer, xor with the sign mask adds 2^31; a
    non-negative one has no bit in common with the mask. *)
Lemma lxor_sign a :
  - 2 ^ 31 <= a < 0 → Z.lxor a (- 2 ^ 31) = a + 2 ^ 31.
Proof.
  intros Ha.
  assert (Z.land (a + 2 ^ 31) (- 2 ^ 31) = 0) as H0.
  { replace (- 2 ^ 31) with (Z.lnot (Z.ones 31)) by reflexivity.
    rewrite <- Z.ldiff_land, Z.ldiff_ones_r by lia.
    rewrite Z.shiftr_div_pow2 by lia.
    rewrite Z.div_small by lia. apply Z.shiftl_0_l. }
  apply Z.add_nocarry_lxor in H0.
  replace (a + 2 ^ 31 + - 2 ^ 31) with a in H0 by lia.
  rewrite H0 at 1.
  by rewrite Z.lxor_assoc, Z.lxor_nilpotent, Z.lxor_0_r.
Qed.

Lemma land_sign a : 0 <= a < 2 ^ 31 → Z.land a (- 2 ^ 31) = 0.
Proof.
  intros Ha.
  replace (- 2 ^ 31) with (Z.lnot (Z.ones 31)) by reflexivity.
  rewrite <- Z.ldiff_land, Z.ldiff_ones_r by lia.
  rewrite Z.shiftr_div_pow2 by lia.
  rewrite Z.div_small by lia. apply Z.shiftl_0_l.
Qed.

(** For a mask [1 << q] and a loop index [i], whenever [i & mask] is not
    zero the partner [i ^ mask] is not above [i]. *)
Lemma partner_below (i : nat) q :
  JS.and (Z.of_nat i) (JS.shl 1 q) ≠ 0 →
  JS.xor (Z.of_nat i) (JS.shl 1 q) < Z.of_nat i.
Proof.
  unfold JS.and, JS.xor.
  pose proof (toInt32_range (Z.of_nat i)) as Hr.
  pose proof (toInt32_le (Z.of_nat i) ltac:(lia)) as Hle.
  set (a := JS.toInt32 (Z.of_nat i)) in *.
  assert (0 <= q mod 32 < 32) as Hk by (apply Z.mod_pos_bound; lia).
  destruct (shl_1 q) as [[Hlt ->]|[_ ->]].
  - assert (2 ^ (q mod 32) <= 2 ^ 30) by (apply Z.pow_le_mono_r; lia).
    assert (0 < 2 ^ (q mod 32)) by (apply Z.pow_pos_nonneg; lia).
    rewrite toInt32_small by lia.
    rewrite land_pow2, lxor_pow2 by lia.
    destruct (Z.testbit a (q mod 32)); [lia | done].
  - rewrite (toInt32_small (- 2 ^ 31)) by lia.
    destruct (Z_lt_le_dec a 0) as [Hneg|Hpos].
    + rewrite lxor_sign by lia. unfold JS.toInt32 in a.
      assert (2 ^ 31 <= Z.of_nat i); [|lia].
      destruct (Z_lt_le_dec (Z.of_nat i) (2 ^ 31)); [|done].
      subst a. rewrite Z.mod_small in Hneg; lia.
    + rewrite land_sign by lia. done.
Qed.

End JS_facts.

(** ** Gates that leave the amplitudes alone *)

(** A loop whose body never changes its state returns it. *)
Lemma for_from_skip {S} (body : nat → S → option S) (s : S) n start :
  (∀ i, body i s = Some s) → JS.for_from body start n s = Some s.
Proof.
  intros Hbody. revert start.
  induction n as [|n IH]; intros start; simpl; [done|].
  rewrite Hbody. simpl. apply IH.
Qed.

(** C6. A ControlledNot gate without a control qubit index returns the
    amplitudes it was given, whatever the array and the target index are:
    it is a silent no-op, not an error. *)
Theorem CNOT_without_control_is_noop (amplitudes : list Amp) (gid : string)
    (q t : Z) :
  applyGate amplitudes (mkGate gid GateType.CNOT q None t) = Some amplitudes.
Proof. reflexivity. Qed.

(** C10. A ControlledNot gate whose control index equals its target index
    returns the amplitudes unchanged: at an index with the control bit set
    the partner [i ^ targetMask] is below [i], so the guard [i < target]
    fails at every iteration. *)
Theorem CNOT_control_eq_target_is_noop (amplitudes : list Amp) (gid : string)
    (q t : Z) :
  applyGate amplitudes (mkGate gid GateType.CNOT q (Some q) t) = Some amplitudes
  ∧ ∀ i : nat,
      JS.and (Z.of_nat i) (JS.shl 1 q) ≠ 0%Z →
      (JS.xor (Z.of_nat i) (JS.shl 1 q) < Z.of_nat i)%Z.
Proof.
  split.
  - unfold applyGate; simpl. apply for_from_skip.
    intros i. unfold CNOT_body.
    destruct (Z.eqb_spec (JS.and (Z.of_nat i) (JS.shl 1 q)) 0) as [|Hne];
      simpl; [done|].
    apply partner_below in Hne.
    destruct (Z.ltb_spec (Z.of_nat i) (JS.xor (Z.of_nat i) (JS.shl 1 q)));
      [lia | done].
  - intros i. apply partner_below.
Qed.

Lemma CNOT_control_eq_target_witness :
  applyGate [mkAmp 1 0; mkAmp 0 0; mkAmp 0 1; mkAmp 0 0]
    (mkGate "cx" GateType.CNOT 1 (Some 1%Z) 0)
  = Some [mkAmp 1 0; mkAmp 0 0; mkAmp 0 1; mkAmp 0 0]
  ∧ (JS.xor (Z.of_nat 3) (JS.shl 1 1) < Z.of_nat 3)%Z.
Proof.
  destruct (CNOT_control_eq_target_is_noop
              [mkAmp 1 0; mkAmp 0 0; mkAmp 0 1; mkAmp 0 0] "cx" 1 0)
    as [Hnoop Hbelow].
  split; [exact Hnoop|]. apply Hbelow. vm_compute. discriminate.
Defined.

(** What the specification asks of a PauliZ gate on qubit [q]: the amplitude
    of every basis state whose bit [q] is set is negated, the others stay. *)
Definition negate (a : Amp) : Amp := {| real := - real a; imag := - imag a |}.

Definition PauliZ_spec (q : Z) (amplitudes : list Amp) : list Amp :=
  imap (fun i a => if Z.testbit (Z.of_nat i) q then negate a else a) amplitudes.

(** C4, as stated, fails: on the one-qubit state |1> a PauliZ gate on qubit 0
    returns the amplitude 1 of index 1, not -1. *)
Lemma PauliZ_does_not_negate :
  applyGate [mkAmp 0 0; mkAmp 1 0] (mkGate "z" GateType.Z 0 None 0)
    = Some [mkAmp 0 0; mkAmp 1 0]
  ∧ PauliZ_spec 0 [mkAmp 0 0; mkAmp 1 0] = [mkAmp 0 0; mkAmp (-1) (-0)]
  ∧ applyGate [mkAmp 0 0; mkAmp 1 0] (mkGate "z" GateType.Z 0 None 0)
    ≠ Some (PauliZ_spec 0 [mkAmp 0 0; mkAmp 1 0]).
Proof.
  split; [reflexivity|]. split; [reflexivity|].
  simpl. intros [= H]. lra.
Qed.

(** C4, amended.  [applyGate] has branches for X, H and CNOT only: a PauliZ
    gate, like an Identity gate (and a PauliY gate), returns every amplitude
    unchanged. *)
Theorem PauliZ_and_Identity_are_noops (amplitudes : list Amp) (gid : string)
    (q t : Z) (c : option Z) :
  applyGate amplitudes (mkGate gid GateType.Z q c t) = Some amplitudes
  ∧ applyGate amplitudes (mkGate gid GateType.I q c t) = Some amplitudes
  ∧ applyGate amplitudes (mkGate gid GateType.Y q c t) = Some amplitudes.
Proof. repeat split. Qed.

(** ** The cumulative error *)

Section TotalError.
Local Open Scope R_scope.

Lemma totalError_0 p : totalError p 0 = p.
Proof. unfold totalError. simpl. lra. Qed.

Lemma totalError_range p g : 0 <= p <= 1 → 0 <= totalError p g <= 1.
Proof.
  intros Hp. unfold totalError.
  assert (0 <= (1 - p) ^ Nat.max 1 g) by (apply pow_le; lra).
  assert ((1 - p) ^ Nat.max 1 g <= 1).
  { pose proof (pow_incr (1 - p) 1 (Nat.max 1 g)) as Hle.
    rewrite pow1 in Hle. apply Hle. lra. }
  lra.
Qed.


End TotalError.

(** ** The BitFlip perturbation *)

(** What the specification asks of the BitFlip perturbation: every entry is
    blended with its partner, both taken from the ideal vector. *)
Definition BIT_FLIP_spec (ideal : list R) (flipAmount : R) : list R :=
  imap (fun i val =>
          val * (1 - flipAmount)
          + nth (length ideal - 1 - i) ideal 0%R * flipAmount)%R ideal.

(** C1 fails on the code.  One qubit and no gate give the ideal vector
    [1; 0] and the exponent 1; with probability 1/2, [flipAmount] is 0.2.
    Index 0 becomes 0.8, and index 1 then reads this new value of its
    partner, giving 0.16 where the blend of the ideal entries is 0.2. *)
Theorem BIT_FLIP_reads_updated_partner :
  map prob <$> idealAmplitudes 1 [] = Some [1; 0]%R
  ∧ perturb [1; 0]%R (mkNoise NoiseType.BIT_FLIP (1 / 2)) 0 = [0.8; 0.16]%R
  ∧ BIT_FLIP_spec [1; 0]%R (totalError (1 / 2) 0 * 0.4) = [0.8; 0.2]%R.
Proof.
  split; [|split].
  - unfold idealAmplitudes, prob. simpl.
    f_equal. f_equal; [lra|]. f_equal. lra.
  - unfold perturb, totalError, BIT_FLIP_body. simpl.
    f_equal; [lra|]. f_equal. lra.
  - unfold BIT_FLIP_spec, totalError. simpl.
    f_equal; [lra|]. f_equal. lra.
Qed.

(** ** Sums of arrays *)

Section Sum.
Local Open Scope R_scope.

Lemma fold_left_Rplus (l : list R) (a : R) :
  fold_left Rplus l a = a + sum l.
Proof.
  unfold sum. revert a. induction l as [|x l IH]; intros a; simpl; [lra|].
  rewrite (IH (a + x)), (IH (0 + x)). lra.
Qed.

Lemma sum_nil : sum [] = 0.
Proof. reflexivity. Qed.

Lemma sum_cons x (l : list R) : sum (x :: l) = x + sum l.
Proof. unfold sum at 1. simpl. rewrite fold_left_Rplus. lra. Qed.

Lemma sum_app (l1 l2 : list R) : sum (l1 ++ l2) = sum l1 + sum l2.
Proof.
  induction l1 as [|x l1 IH]; simpl; [rewrite sum_nil; lra|].
  rewrite !sum_cons, IH. lra.
Qed.

Lemma sum_map_div (l : list R) (d : R) :
  sum (map (fun v => v / d) l) = sum l / d.
Proof.
  induction l as [|x l IH]; simpl; [rewrite sum_nil; lra|].
  rewrite !sum_cons, IH. lra.
Qed.

Lemma sum_nonneg (l : list R) : Forall (Rle 0) l → 0 <= sum l.
Proof.
  induction 1 as [|x l Hx _ IH]; [rewrite sum_nil; lra|].
  rewrite sum_cons. lra.
Qed.

Lemma map_div_1 (l : list R) : map (fun v => v / 1) l = l.
Proof.
  induction l as [|x l IH]; simpl; [done|].
  rewrite IH. f_equal. lra.
Qed.

End Sum.

(** ** Renormalisation *)

(** The sum of an array as the mathematical sum of its entries, against
    which the [reduce] of the source is measured. *)
Lemma sum_fold_right (l : list R) : sum l = fold_right Rplus 0%R l.
Proof.
  induction l as [|x l IH]; [done|]. rewrite sum_cons, IH. done.
Qed.

(** C8. For a non-empty ideal vector, with [total] the sum of the entries of
    the perturbed vector: whenever [total] is not zero the noisy vector is
    the perturbed vector divided entrywise by [total], and its entries sum
    to 1; when [total] is zero the divisor is 1 and the perturbed vector is
    returned as it is.  (The vector is taken non-empty because of the NaN
    that the AmplitudeDamping branch of the source stores in an empty
    array.) *)
Theorem applyNoiseModel_renormalises (ideal : list R) (noise : NoiseConfig)
    (gateCount : nat) :
  ideal ≠ [] →
  let perturbed := perturb ideal noise gateCount in
  let total := fold_right Rplus 0%R perturbed in
  (total ≠ 0%R →
     applyNoiseModel ideal noise gateCount
       = map (fun v => v / total)%R perturbed
     ∧ fold_right Rplus 0%R (applyNoiseModel ideal noise gateCount) = 1%R)
  ∧ (total = 0%R →
     applyNoiseModel ideal noise gateCount = perturbed).
Proof.
  intros _ perturbed total.
  assert (sum perturbed = total) as Hsum by apply sum_fold_right.
  assert (applyNoiseModel ideal noise gateCount
          = map (fun v => v / or_1 total)%R perturbed) as Heq.
  { unfold applyNoiseModel. fold perturbed. by rewrite Hsum. }
  unfold or_1 in Heq. destruct (Req_dec_T total 0) as [Hz|Hnz].
  - split; [done|]. intros _. rewrite Heq. apply map_div_1.
  - split; [|done]. intros _. split; [done|].
    rewrite <- sum_fold_right, Heq, sum_map_div, Hsum. by apply Rdiv_diag.
Qed.

(** The BitFlip vector of [1; 0] at probability 1/2 sums to 0.96, and is
    divided by it. *)
Lemma applyNoiseModel_renormalises_witness :
  applyNoiseModel [1; 0]%R (mkNoise NoiseType.BIT_FLIP (1 / 2)) 1
  = map (fun v => v / fold_right Rplus 0
                       (perturb [1; 0] (mkNoise NoiseType.BIT_FLIP (1 / 2)) 1))%R
      (perturb [1; 0]%R (mkNoise NoiseType.BIT_FLIP (1 / 2)) 1).
Proof.
  refine (proj1 (proj1 (applyNoiseModel_renormalises [1; 0]%R
            (mkNoise NoiseType.BIT_FLIP (1 / 2)) 1 _) _)).
  - discriminate.
  - unfold perturb, totalError, BIT_FLIP_body. simpl. lra.
Defined.

(** ** Loops and array accesses inside the bounds *)

(** Invariant rule of the [for] loop: an invariant [Inv i s], indexed by the
    loop counter, that every iteration re-establishes holds at the exit, and
    the loop does not fail. *)
Lemma for_from_invariant {S} (Inv : nat → S → Prop) (body : nat → S → option S)
    (n start : nat) (s : S) :
  Inv start s →
  (∀ i s, start ≤ i < start + n → Inv i s →
          ∃ s', body i s = Some s' ∧ Inv (Datatypes.S i) s') →
  ∃ s', JS.for_from body start n s = Some s' ∧ Inv (start + n) s'.
Proof.
  revert start s. induction n as [|n IH]; intros start s Hs Hbody; simpl.
  - exists s. by rewrite Nat.add_0_r.
  - destruct (Hbody start s ltac:(lia) Hs) as (s1 & -> & Hs1). simpl.
    destruct (IH (Datatypes.S start) s1 Hs1) as (s2 & Hrun & Hs2).
    { intros i s' Hi. apply Hbody. lia. }
    exists s2. split; [done|]. by replace (start + Datatypes.S n) with (Datatypes.S start + n) by lia.
Qed.

Lemma get_of_nat {A} (arr : list A) (k : nat) :
  JS.get arr (Z.of_nat k) = arr !! k.
Proof.
  unfold JS.get. destruct (Z.leb_spec 0 (Z.of_nat k)); [|lia].
  by rewrite Nat2Z.id.
Qed.

Lemma set_of_nat {A} (arr : list A) (k : nat) (v : A) :
  k < length arr → JS.set arr (Z.of_nat k) v = Some (<[k := v]> arr).
Proof.
  intros Hk. unfold JS.set.
  destruct (Z.leb_spec 0 (Z.of_nat k)); [|lia].
  destruct (Z.ltb_spec (Z.of_nat k) (Z.of_nat (length arr))); [|lia].
  simpl. by rewrite Nat2Z.id.
Qed.

(** Total probability of an amplitude array. *)
Definition total (amplitudes : list Amp) : R := sum (map prob amplitudes).

Lemma total_insert (amplitudes : list Amp) (k : nat) (old new : Amp) :
  amplitudes !! k = Some old →
  (total (<[k := new]> amplitudes) = total amplitudes - prob old + prob new)%R.
Proof.
  intros Hk. unfold total.
  assert (k < length amplitudes) as Hlt by (by apply lookup_lt_Some in Hk).
  rewrite insert_take_drop by done.
  rewrite <- (take_drop_middle amplitudes k old Hk) at 3.
  rewrite !map_app. simpl. rewrite !sum_app, !sum_cons. lra.
Qed.

(** A swap of two distinct entries inside the bounds succeeds and keeps the
    length and the total probability. *)
Lemma swap_inside (newAmps : list Amp) (i t : nat) :
  i < length newAmps → t < length newAmps → i ≠ t →
  ∃ swapped, swap newAmps (Z.of_nat i) (Z.of_nat t) = Some swapped
             ∧ length swapped = length newAmps
             ∧ total swapped = total newAmps.
Proof.
  intros Hi Ht Hne. unfold swap. rewrite !get_of_nat.
  destruct (lookup_lt_is_Some_2 newAmps i Hi) as [ai Hai].
  destruct (lookup_lt_is_Some_2 newAmps t Ht) as [at_ Hat].
  rewrite Hai, Hat. simpl.
  rewrite set_of_nat by done. simpl.
  rewrite set_of_nat by (by rewrite length_insert).
  eexists. split; [done|]. split; [by rewrite !length_insert|].
  rewrite (total_insert _ t at_ ai) by (by rewrite list_lookup_insert_ne).
  rewrite (total_insert _ i ai at_) by done. lra.
Qed.

(** ** Well-formed gates *)

(** A gate of an [N]-qubit circuit has its target qubit in [0, N).  (Nothing
    is asked of the control index of a ControlledNot gate: it only selects
    the indices that are swapped.) *)
Definition valid_gate (N : nat) (g : Gate) : Prop :=
  (0 <= qubit g < Z.of_nat N)%Z.

(** Bit [q] of a basis index, and the index that differs in that bit. *)
Definition bit (q : Z) (k : nat) : bool := Z.testbit (Z.of_nat k) q.

Definition partner (q : Z) (k : nat) : nat :=
  Z.to_nat (Z.lxor (Z.of_nat k) (2 ^ q)).

Section Partner.
Variables (N : nat) (q : Z).
Hypothesis HN : N ≤ 31.
Hypothesis Hq : (0 <= q < Z.of_nat N)%Z.

Local Open Scope Z_scope.

Lemma pow2_pos : 0 < 2 ^ q.
Proof. apply Z.pow_pos_nonneg; lia. Qed.

Lemma states_pow2 : Z.of_nat (2 ^ N) = 2 ^ Z.of_nat N.
Proof. by rewrite Nat2Z.inj_pow. Qed.

Lemma states_le : 2 ^ Z.of_nat N <= 2 ^ 31.
Proof. apply Z.pow_le_mono_r; lia. Qed.

Lemma mask_lt : 2 ^ q < 2 ^ Z.of_nat N.
Proof. apply Z.pow_lt_mono_r; lia. Qed.

Lemma lxor_nonneg (k : nat) : 0 <= Z.lxor (Z.of_nat k) (2 ^ q).
Proof. apply Z.lxor_nonneg. pose proof pow2_pos. lia. Qed.

Lemma partner_Z (k : nat) :
  Z.of_nat (partner q k) = Z.lxor (Z.of_nat k) (2 ^ q).
Proof. unfold partner. rewrite Z2Nat.id; [done | apply lxor_nonneg]. Qed.

Lemma partner_cases (k : nat) :
  Z.of_nat (partner q k)
  = if bit q k then Z.of_nat k - 2 ^ q else Z.of_nat k + 2 ^ q.
Proof. rewrite partner_Z. apply lxor_pow2. lia. Qed.

Lemma partner_bit (k : nat) : bit q (partner q k) = negb (bit q k).
Proof.
  unfold bit. rewrite partner_Z, Z.lxor_spec, Z.pow2_bits_true by lia.
  by destruct (Z.testbit (Z.of_nat k) q).
Qed.

Lemma partner_involutive (k : nat) : partner q (partner q k) = k.
Proof.
  apply Nat2Z.inj. rewrite !partner_Z.
  by rewrite Z.lxor_assoc, Z.lxor_nilpotent, Z.lxor_0_r.
Qed.

Lemma partner_below_iff (k : nat) : (partner q k < k)%nat ↔ bit q k = true.
Proof.
  pose proof (partner_cases k) as Hc. pose proof pow2_pos.
  destruct (bit q k); split; intros; try done; lia.
Qed.

Lemma partner_ne (k : nat) : partner q k ≠ k.
Proof.
  pose proof (partner_cases k) as Hc. pose proof pow2_pos.
  destruct (bit q k); lia.
Qed.

Lemma partner_lt (k : nat) : (k < 2 ^ N)%nat → (partner q k < 2 ^ N)%nat.
Proof.
  intros Hk. apply Nat2Z.inj_lt. rewrite partner_Z, states_pow2.
  pose proof (lxor_nonneg k) as Hnn.
  destruct (Z.eq_dec (Z.lxor (Z.of_nat k) (2 ^ q)) 0) as [->|Hne].
  { apply Z.pow_pos_nonneg; lia. }
  apply Z.log2_lt_pow2; [lia|].
  eapply Z.le_lt_trans; [apply Z.log2_lxor; pose proof pow2_pos; lia|].
  apply Z.max_lub_lt.
  - destruct (Z.eq_dec (Z.of_nat k) 0) as [->|Hk0]; [simpl; lia|].
    apply Z.log2_lt_pow2; [lia|]. rewrite <- states_pow2. lia.
  - rewrite Z.log2_pow2; lia.
Qed.

(** On indices and masks of an [N]-qubit register the 32-bit operators
    are the mathematical ones. *)
Lemma shl_mask : JS.shl 1 q = 2 ^ q.
Proof. apply shl_1_valid. lia. Qed.

Lemma xor_mask (k : nat) :
  (k < 2 ^ N)%nat → JS.xor (Z.of_nat k) (2 ^ q) = Z.of_nat (partner q k).
Proof.
  intros Hk. unfold JS.xor. rewrite partner_Z.
  pose proof states_le. pose proof mask_lt. pose proof pow2_pos.
  pose proof states_pow2.
  rewrite !toInt32_small; [done | lia | lia].
Qed.

Lemma and_mask (k : nat) :
  (k < 2 ^ N)%nat →
  JS.and (Z.of_nat k) (2 ^ q) = if bit q k then 2 ^ q else 0.
Proof.
  intros Hk. unfold JS.and.
  pose proof states_le. pose proof mask_lt. pose proof pow2_pos.
  pose proof states_pow2.
  rewrite !toInt32_small; [|lia|lia].
  apply land_pow2. lia.
Qed.

Lemma and_mask_zero (k : nat) :
  (k < 2 ^ N)%nat →
  negb (JS.and (Z.of_nat k) (2 ^ q) =? 0) = bit q k.
Proof.
  intros Hk. rewrite and_mask by done. pose proof pow2_pos.
  destruct (bit q k); simpl.
  - destruct (Z.eqb_spec (2 ^ q) 0); [lia | done].
  - done.
Qed.

End Partner.

(** ** The swap gates on a well-formed register *)

Section Swaps.
Variables (N : nat) (amplitudes : list Amp).
Hypothesis HN : N ≤ 31.
Hypothesis Hlen : length amplitudes = 2 ^ N.

(** What the X and CNOT loops keep. *)
Definition swap_inv (newAmps : list Amp) : Prop :=
  length newAmps = 2 ^ N ∧ total newAmps = total amplitudes.

Lemma guarded_swap_inv (q : Z) (i : nat) (newAmps : list Amp) :
  (0 <= q < Z.of_nat N)%Z → i < 2 ^ N → swap_inv newAmps →
  ∃ s',
    (if (Z.of_nat i <? JS.xor (Z.of_nat i) (JS.shl 1 q))%Z
     then swap newAmps (Z.of_nat i) (JS.xor (Z.of_nat i) (JS.shl 1 q))
     else Some newAmps) = Some s'
    ∧ swap_inv s'.
Proof.
  intros Hq Hi [Hl Ht].
  rewrite (shl_mask N q HN Hq), (xor_mask N q HN Hq i Hi).
  destruct (Z.ltb_spec (Z.of_nat i) (Z.of_nat (partner q i))) as [Hlt|_].
  - pose proof (partner_lt N q HN Hq i Hi) as Hp.
    destruct (swap_inside newAmps i (partner q i)) as (s' & Hs & Hl' & Ht');
      [lia | lia | lia |].
    exists s'. split; [done|]. split; congruence.
  - by exists newAmps.
Qed.

Lemma X_inside (g : Gate) :
  (0 <= qubit g < Z.of_nat N)%Z →
  ∃ amps', JS.for_ (length amplitudes) (X_body g) amplitudes = Some amps'
           ∧ swap_inv amps'.
Proof.
  intros Hq. unfold JS.for_.
  destruct (for_from_invariant (fun _ => swap_inv) (X_body g)
              (length amplitudes) 0 amplitudes) as (s' & Hrun & Hinv).
  - by split.
  - intros i s Hi Hs. unfold X_body. apply guarded_swap_inv; [done|lia|done].
  - by exists s'.
Qed.

Lemma CNOT_inside (c q : Z) :
  (0 <= q < Z.of_nat N)%Z →
  ∃ amps',
    JS.for_ (length amplitudes) (CNOT_body (JS.shl 1 c) (JS.shl 1 q)) amplitudes
      = Some amps'
    ∧ swap_inv amps'.
Proof.
  intros Hq. unfold JS.for_.
  destruct (for_from_invariant (fun _ => swap_inv)
              (CNOT_body (JS.shl 1 c) (JS.shl 1 q))
              (length amplitudes) 0 amplitudes) as (s' & Hrun & Hinv).
  - by split.
  - intros i s Hi Hs. unfold CNOT_body.
    destruct (negb _); [|by exists s].
    apply guarded_swap_inv; [done|lia|done].
  - by exists s'.
Qed.

End Swaps.

(** ** The Hadamard gate on a well-formed register *)

Lemma invSqrt2_sq : (invSqrt2 * invSqrt2 = 1 / 2)%R.
Proof.
  unfold invSqrt2.
  assert (sqrt 2 * sqrt 2 = 2)%R as Hs by (apply sqrt_sqrt; lra).
  assert (sqrt 2 ≠ 0)%R as Hn by (intros H0; rewrite H0 in Hs; lra).
  replace (1 / sqrt 2 * (1 / sqrt 2))%R with (1 / (sqrt 2 * sqrt 2))%R
    by (field; done).
  by rewrite Hs.
Qed.

(** The two new amplitudes of a pair carry the probability of the old ones. *)
Lemma prob_H_pair (l h : Amp) :
  (prob {| real := (real l + real h) * invSqrt2;
           imag := (imag l + imag h) * invSqrt2 |}
   + prob {| real := (real l - real h) * invSqrt2;
             imag := (imag l - imag h) * invSqrt2 |}
   = prob l + prob h)%R.
Proof.
  unfold prob. simpl. pose proof invSqrt2_sq as Hs.
  set (s := invSqrt2) in *.
  replace (((real l + real h) * s * ((real l + real h) * s * 1)
            + (imag l + imag h) * s * ((imag l + imag h) * s * 1)
            + ((real l - real h) * s * ((real l - real h) * s * 1)
               + (imag l - imag h) * s * ((imag l - imag h) * s * 1))))%R
    with ((s * s) * (2 * (real l * real l + imag l * imag l
                          + real h * real h + imag h * imag h)))%R by ring.
  rewrite Hs. lra.
Qed.

Section Hadamard.
Variables (N : nat) (q : Z) (amplitudes : list Amp).
Hypothesis HN : N ≤ 31.
Hypothesis Hq : (0 <= q < Z.of_nat N)%Z.
Hypothesis Hlen : length amplitudes = 2 ^ N.

(** The entry that the Hadamard gate on qubit [q] gives to index [k],
    computed from the argument array. *)
Definition H_entry (k : nat) : option Amp :=
  if bit q k
  then H_high amplitudes (Z.of_nat (partner q k)) (Z.of_nat k)
  else H_low amplitudes (Z.of_nat k) (Z.of_nat (partner q k)).

(** Invariant of the Hadamard loop before iteration [i]: the processed
    indices are those of the pairs met so far; they hold their new entries
    and the others their old ones. *)
Definition H_inv (i : nat) (st : list Amp * gset Z) : Prop :=
  length st.1 = 2 ^ N
  ∧ (∀ k, k < 2 ^ N → Z.of_nat k ∈ st.2 ↔ (k < i ∨ partner q k < i))
  ∧ (∀ k, k < 2 ^ N →
       st.1 !! k = if decide (Z.of_nat k ∈ st.2) then H_entry k
                   else amplitudes !! k)
  ∧ total st.1 = total amplitudes.

Lemma H_inv_init : H_inv 0 (amplitudes, ∅).
Proof.
  split; [done|]. split; [|split; [|done]]; simpl.
  - intros k Hk. split; [|lia]. intros Hin. by apply not_elem_of_empty in Hin.
  - intros k Hk. rewrite decide_False; [done|]. apply not_elem_of_empty.
Qed.

Lemma H_inv_step (i : nat) (st : list Amp * gset Z) :
  i < 2 ^ N → H_inv i st →
  ∃ st', H_body amplitudes (2 ^ q) i st = Some st' ∧ H_inv (S i) st'.
Proof.
  intros Hi. destruct st as [newAmps processed].
  intros (Hl & Hmem & Hval & Htot). simpl in *.
  unfold H_body. destruct (decide (Z.of_nat i ∈ processed)) as [Hin|Hnin].
  - exists (newAmps, processed). split; [done|].
    split; [done|]. split; [|done]. simpl.
    intros k Hk. rewrite (Hmem k Hk).
    apply (Hmem i Hi) in Hin.
    split; [lia|]. intros [Hlt|Hlt].
    + destruct (decide (k = i)) as [->|]; [done | left; lia].
    + destruct (decide (partner q k = i)) as [Heq|]; [|right; lia].
      left. destruct Hin as [?|Hp]; [lia|].
      rewrite <- Heq in Hp.
      rewrite (partner_involutive N q HN Hq) in Hp. lia.
  - assert (bit q i = false) as Hbit.
    { destruct (bit q i) eqn:E; [|done]. exfalso.
      apply Hnin, (Hmem i Hi). right.
      by apply (partner_below_iff N q HN Hq). }
    rewrite (xor_mask N q HN Hq i Hi), (and_mask_zero N q HN Hq i Hi), Hbit.
    pose proof (partner_lt N q HN Hq i Hi) as Hj.
    pose proof (partner_cases N q HN Hq i) as Hc. rewrite Hbit in Hc.
    pose proof (pow2_pos N q HN Hq) as Hpos.
    pose proof (partner_involutive N q HN Hq i) as Hinv.
    pose proof (partner_bit N q HN Hq i) as Hbj. rewrite Hbit in Hbj.
    set (j := partner q i) in *.
    assert (i < j) as Hij by lia.
    destruct (lookup_lt_is_Some_2 amplitudes i) as [ai Hai]; [lia|].
    destruct (lookup_lt_is_Some_2 amplitudes j) as [aj Haj]; [lia|].
    unfold H_low, H_high. rewrite !get_of_nat, Hai, Haj. simpl.
    rewrite set_of_nat by lia. simpl.
    rewrite set_of_nat by (rewrite length_insert; lia). simpl.
    eexists. split; [done|]. unfold H_inv. simpl.
    split; [by rewrite !length_insert|]. split; [|split].
    + intros k Hk. rewrite !elem_of_union, !elem_of_singleton, (Hmem k Hk).
      split.
      * intros [Hkj|[Hki|[?|?]]].
        -- apply Nat2Z.inj in Hkj. subst k. right. lia.
        -- apply Nat2Z.inj in Hki. left. lia.
        -- left. lia.
        -- right. lia.
      * intros [Hlt|Hlt].
        -- destruct (decide (k = i)) as [->|]; [by right; left|].
           right. right. left. lia.
        -- destruct (decide (partner q k = i)) as [Heq|].
           ++ left. f_equal. unfold j. rewrite <- Heq.
              by rewrite (partner_involutive N q HN Hq).
           ++ right. right. right. lia.
    + intros k Hk. destruct (decide (k = j)) as [->|Hkj].
      * rewrite list_lookup_insert_eq by (rewrite length_insert; lia).
        rewrite decide_True by (apply elem_of_union_l, elem_of_singleton; done).
        unfold H_entry. rewrite Hbj, Hinv. simpl.
        unfold H_high. by rewrite !get_of_nat, Hai, Haj.
      * rewrite list_lookup_insert_ne by done.
        destruct (decide (k = i)) as [->|Hki].
        -- rewrite list_lookup_insert_eq by lia.
           rewrite decide_True
             by (apply elem_of_union_r, elem_of_union_l, elem_of_singleton; done).
           unfold H_entry. rewrite Hbit. fold j.
           unfold H_low. by rewrite !get_of_nat, Hai, Haj.
        -- rewrite list_lookup_insert_ne by done. rewrite (Hval k Hk).
           destruct (decide (Z.of_nat k ∈ processed)) as [Hp|Hp].
           ++ by rewrite decide_True by (by do 2 apply elem_of_union_r).
           ++ rewrite decide_False; [done|].
              rewrite !elem_of_union, !elem_of_singleton.
              intros [?|[?|?]]; [lia | lia | done].
    + assert (newAmps !! i = Some ai) as Hni.
      { by rewrite (Hval i Hi), decide_False. }
      assert (newAmps !! j = Some aj) as Hnj.
      { rewrite (Hval j Hj), decide_False; [done|].
        intros Hp. apply (Hmem j Hj) in Hp. lia. }
      rewrite (total_insert _ j aj) by (by rewrite list_lookup_insert_ne by lia).
      rewrite (total_insert _ i ai) by done.
      rewrite Htot. pose proof (prob_H_pair ai aj). lra.
Qed.

End Hadamard.

Lemma mul_invSqrt2 (x : R) : (x * invSqrt2 = x / sqrt 2)%R.
Proof. unfold invSqrt2, Rdiv. ring. Qed.

(** The Hadamard loop, stopped before iteration [n], has not failed and
    satisfies its invariant. *)
Lemma H_loop_prefix (N : nat) (q : Z) (amplitudes : list Amp) (n : nat) :
  N ≤ 31 → (0 <= q < Z.of_nat N)%Z → length amplitudes = 2 ^ N →
  n ≤ 2 ^ N →
  ∃ st, JS.for_ n (H_body amplitudes (JS.shl 1 q)) (amplitudes, ∅) = Some st
        ∧ H_inv N q amplitudes n st.
Proof.
  intros HN Hq Hlen Hn. rewrite (shl_mask N q HN Hq). unfold JS.for_.
  destruct (for_from_invariant (H_inv N q amplitudes)
              (H_body amplitudes (2 ^ q)) n 0 (amplitudes, ∅))
    as (st & Hrun & Hinv).
  - by apply H_inv_init.
  - intros i st Hi. apply H_inv_step; [done | done | done | lia].
  - by exists st.
Qed.

(** C5. On a register of [N <= 31] qubits the Hadamard gate on qubit [q] gives
    every pair [{i, i ^ mask}], [i] being the member with bit [q] clear, the
    entries [(low + high) / sqrt 2] and [(low - high) / sqrt 2], on the real
    and on the imaginary parts, from the entries [low] and [high] of the
    argument array; the pairs partition the indices, and when the loop
    reaches an index it skips it exactly if it is the member with bit [q]
    set, so each pair is visited once. *)
Theorem Hadamard_simultaneous_update (N : nat) (amplitudes : list Amp)
    (gid : string) (q t : Z) (c : option Z) :
  N ≤ 31 → (0 <= q < Z.of_nat N)%Z → length amplitudes = 2 ^ N →
  let mask := JS.shl 1 q in
  ∃ newAmps,
    applyGate amplitudes (mkGate gid GateType.H q c t) = Some newAmps
    ∧ length newAmps = length amplitudes
    ∧ (∀ (i : nat) (low high : Amp),
         JS.and (Z.of_nat i) mask = 0%Z →
         JS.get amplitudes (Z.of_nat i) = Some low →
         JS.get amplitudes (JS.xor (Z.of_nat i) mask) = Some high →
         JS.get newAmps (Z.of_nat i)
           = Some {| real := (real low + real high) / sqrt 2;
                     imag := (imag low + imag high) / sqrt 2 |}%R
         ∧ JS.get newAmps (JS.xor (Z.of_nat i) mask)
           = Some {| real := (real low - real high) / sqrt 2;
                     imag := (imag low - imag high) / sqrt 2 |}%R)
    ∧ (∀ i : nat, i < length amplitudes →
         let j := JS.xor (Z.of_nat i) mask in
         (0 <= j < Z.of_nat (length amplitudes))%Z
         ∧ JS.xor j mask = Z.of_nat i
         ∧ (JS.and (Z.of_nat i) mask = 0%Z ↔ JS.and j mask ≠ 0%Z))
    ∧ (∀ i : nat, i < length amplitudes →
         ∃ st, JS.for_ i (H_body amplitudes mask) (amplitudes, ∅) = Some st
               ∧ (Z.of_nat i ∈ st.2 ↔ JS.and (Z.of_nat i) mask ≠ 0%Z)).
Proof.
  intros HN Hq Hlen mask.
  pose proof (pow2_pos N q HN Hq) as Hpos.
  assert (∀ i : nat, i < 2 ^ N →
            (JS.and (Z.of_nat i) mask = 0%Z ↔ bit q i = false)) as Hand.
  { intros i Hi. unfold mask.
    rewrite (shl_mask N q HN Hq), (and_mask N q HN Hq i Hi).
    destruct (bit q i); split; intros; try done; lia. }
  destruct (H_loop_prefix N q amplitudes (2 ^ N) HN Hq Hlen ltac:(lia))
    as ([newAmps processed] & Hrun & Hl & Hmem & Hval & _).
  simpl in *. exists newAmps. split.
  { unfold applyGate. simpl. rewrite Hlen. fold mask in Hrun |- *.
    by rewrite Hrun. }
  split; [congruence|]. split; [|split].
  - intros i low high Hclear Hlow Hhigh.
    rewrite get_of_nat in Hlow.
    assert (i < 2 ^ N) as Hi by (rewrite <- Hlen; by eapply lookup_lt_Some).
    apply (Hand i Hi) in Hclear.
    unfold mask in *.
    rewrite (shl_mask N q HN Hq), (xor_mask N q HN Hq i Hi) in *.
    rewrite get_of_nat in Hhigh. rewrite !get_of_nat.
    pose proof (partner_lt N q HN Hq i Hi) as Hj.
    split.
    + rewrite (Hval i Hi), decide_True by (apply Hmem; [done | lia]).
      unfold H_entry, H_low. rewrite Hclear, !get_of_nat, Hlow, Hhigh. simpl.
      by rewrite !mul_invSqrt2.
    + rewrite (Hval _ Hj), decide_True by (apply Hmem; [done | lia]).
      unfold H_entry, H_high.
      rewrite (partner_bit N q HN Hq), Hclear,
        (partner_involutive N q HN Hq), !get_of_nat, Hlow, Hhigh. simpl.
      by rewrite !mul_invSqrt2.
  - intros i Hi. rewrite Hlen in *.
    pose proof (partner_lt N q HN Hq i Hi) as Hj.
    assert (JS.xor (Z.of_nat i) mask = Z.of_nat (partner q i)) as ->.
    { unfold mask. by rewrite (shl_mask N q HN Hq), (xor_mask N q HN Hq i Hi). }
    split; [lia|]. split.
    + unfold mask. rewrite (shl_mask N q HN Hq), (xor_mask N q HN Hq _ Hj).
      by rewrite (partner_involutive N q HN Hq).
    + rewrite (Hand i Hi), (Hand _ Hj), (partner_bit N q HN Hq).
      destruct (bit q i); simpl; split; intros; try done.
  - intros i Hi. rewrite Hlen in Hi.
    destruct (H_loop_prefix N q amplitudes i HN Hq Hlen ltac:(lia))
      as (st & Hrun' & _ & Hmem' & _).
    exists st. split; [done|].
    rewrite (Hmem' i Hi), (Hand i Hi).
    pose proof (partner_below_iff N q HN Hq i) as Hb.
    destruct (bit q i); split; intros; try done; lia.
Qed.

Lemma Hadamard_simultaneous_update_witness :
  ∃ newAmps,
    applyGate [mkAmp 1 0; mkAmp 0 0] (mkGate "h" GateType.H 0 None 0)
      = Some newAmps
    ∧ length newAmps = 2.
Proof.
  destruct (Hadamard_simultaneous_update 1 [mkAmp 1 0; mkAmp 0 0] "h" 0 0 None)
    as (newAmps & Hrun & Hlen & _); [lia | lia | reflexivity |].
  exists newAmps. split; [exact Hrun | exact Hlen].
Defined.

(** ** Total probability *)

(** Every gate of an [N]-qubit circuit succeeds on an [N]-qubit register and
    keeps its length and its total probability. *)
Lemma applyGate_inside (N : nat) (amplitudes : list Amp) (gate : Gate) :
  N ≤ 31 → length amplitudes = 2 ^ N → valid_gate N gate →
  ∃ newAmps, applyGate amplitudes gate = Some newAmps
             ∧ length newAmps = 2 ^ N
             ∧ total newAmps = total amplitudes.
Proof.
  intros HN Hlen Hq. unfold valid_gate in Hq. unfold applyGate.
  destruct gate as [gid ty q c t]. simpl in *.
  destruct ty; try (by exists amplitudes).
  - destruct (H_loop_prefix N q amplitudes (2 ^ N) HN Hq Hlen ltac:(lia))
      as ([newAmps processed] & Hrun & Hl & _ & _ & Ht).
    rewrite Hlen, Hrun. by exists newAmps.
  - destruct (X_inside N amplitudes HN Hlen (mkGate gid GateType.X q c t) Hq)
      as (newAmps & Hrun & Hl & Ht).
    by exists newAmps.
  - destruct c as [c|]; [|by exists amplitudes].
    destruct (CNOT_inside N amplitudes HN Hlen c q Hq)
      as (newAmps & Hrun & Hl & Ht).
    by exists newAmps.
Qed.

Lemma insert_by_time_valid (N : nat) (a : Gate) (sorted : list Gate) :
  valid_gate N a → Forall (valid_gate N) sorted →
  Forall (valid_gate N) (insert_by_time a sorted).
Proof.
  intros Ha. induction 1 as [|b rest Hb Hrest IH]; simpl.
  - by constructor 2.
  - destruct (_ <=? _)%Z.
    + constructor 2; [done|]. by constructor 2.
    + constructor 2; [done|]. by apply IH.
Qed.

Lemma sort_by_time_valid (N : nat) (gates : list Gate) :
  Forall (valid_gate N) gates → Forall (valid_gate N) (sort_by_time gates).
Proof.
  induction 1 as [|a gates Ha _ IH]; simpl; [constructor 1|].
  by apply insert_by_time_valid.
Qed.

Lemma for_of_inside (N : nat) (sortedGates : list Gate) (amplitudes : list Amp) :
  N ≤ 31 → Forall (valid_gate N) sortedGates → length amplitudes = 2 ^ N →
  ∃ amps, for_of sortedGates amplitudes = Some amps
          ∧ length amps = 2 ^ N
          ∧ total amps = total amplitudes.
Proof.
  intros HN Hvalid. revert amplitudes.
  induction Hvalid as [|gate rest Hg _ IH]; intros amplitudes Hlen; simpl.
  - by exists amplitudes.
  - destruct (applyGate_inside N amplitudes gate HN Hlen Hg)
      as (amps1 & -> & Hl1 & Ht1). simpl.
    destruct (IH amps1 Hl1) as (amps2 & Hrun & Hl2 & Ht2).
    exists amps2. split; [done|]. split; [done|]. congruence.
Qed.

(** The register that [simulate] starts from: the basis state of index 0. *)
Lemma initial_state (states : nat) :
  states ≠ 0 →
  let init := <[0 := {| real := 1; imag := 0 |}]>
                (replicate states {| real := 0; imag := 0 |}) in
  length init = states ∧ total init = 1%R.
Proof.
  intros Hs. destruct states as [|m]; [done|]. clear Hs. simpl.
  split; [by rewrite length_replicate|].
  unfold total. simpl. rewrite sum_cons.
  assert (sum (map prob (replicate m {| real := 0; imag := 0 |})) = 0%R) as ->.
  { induction m as [|m IH]; simpl; [done|].
    rewrite sum_cons, IH. unfold prob. simpl. lra. }
  unfold prob. simpl. lra.
Qed.

Lemma idealAmplitudes_inside (N : nat) (gates : list Gate) :
  N ≤ 31 → Forall (valid_gate N) gates →
  ∃ amps, idealAmplitudes N gates = Some amps
          ∧ length amps = 2 ^ N ∧ total amps = 1%R.
Proof.
  intros HN Hvalid. unfold idealAmplitudes.
  destruct (initial_state (2 ^ N)) as [Hl Ht]; [by apply Nat.pow_nonzero|].
  destruct (for_of_inside N (sort_by_time gates) _ HN
              (sort_by_time_valid N gates Hvalid) Hl)
    as (amps & Hrun & Hl' & Ht').
  exists amps. split; [done|]. split; [done|]. congruence.
Qed.

(** C3. On a register of [N <= 31] qubits every gate whose target qubit is
    in [0, N) keeps the sum of [real^2 + imag^2] over the basis indices;
    hence the ideal probabilities that [simulate] computes for a circuit of
    such gates, started from the basis state of index 0, sum to 1. *)
Theorem gates_preserve_total_probability (N : nat) (amplitudes : list Amp)
    (gate : Gate) (gates : list Gate) (noise : NoiseConfig) :
  N ≤ 31 → length amplitudes = 2 ^ N → valid_gate N gate →
  Forall (valid_gate N) gates →
  (∃ newAmps, applyGate amplitudes gate = Some newAmps
              ∧ sum (map prob newAmps) = sum (map prob amplitudes))
  ∧ (∃ amps result,
       idealAmplitudes N gates = Some amps
       ∧ simulate N gates noise = Some result
       ∧ probabilities result = toDict N (map prob amps)
       ∧ sum (map prob amps) = 1%R).
Proof.
  intros HN Hlen Hgate Hgates. split.
  - destruct (applyGate_inside N amplitudes gate HN Hlen Hgate)
      as (newAmps & Hrun & _ & Ht).
    by exists newAmps.
  - destruct (idealAmplitudes_inside N gates HN Hgates)
      as (amps & Hrun & _ & Ht).
    exists amps. unfold simulate. rewrite Hrun. simpl.
    eexists. split; [done|]. split; [done|]. split; [done|]. exact Ht.
Qed.

Lemma gates_preserve_total_probability_witness :
  ∃ newAmps,
    applyGate [mkAmp 1 0; mkAmp 0 0] (mkGate "h" GateType.H 0 None 0)
      = Some newAmps
    ∧ sum (map prob newAmps) = sum (map prob [mkAmp 1 0; mkAmp 0 0]).
Proof.
  refine (proj1 (gates_preserve_total_probability 1 [mkAmp 1 0; mkAmp 0 0]
            (mkGate "h" GateType.H 0 None 0)
            [mkGate "h" GateType.H 0 None 0]
            (mkNoise NoiseType.DEPOLARIZING 0) _ _ _ _)).
  - lia.
  - reflexivity.
  - unfold valid_gate. simpl. lia.
  - constructor; [|constructor]. unfold valid_gate. simpl. lia.
Defined.

(** ** The Bell-state circuit *)

(** The Hadamard gate as a whole: every index holds its [H_entry]. *)
Lemma H_gate_entries (N : nat) (amplitudes : list Amp) (gid : string)
    (q t : Z) (c : option Z) :
  N ≤ 31 → (0 <= q < Z.of_nat N)%Z → length amplitudes = 2 ^ N →
  ∃ newAmps,
    applyGate amplitudes (mkGate gid GateType.H q c t) = Some newAmps
    ∧ length newAmps = 2 ^ N
    ∧ ∀ k, k < 2 ^ N → newAmps !! k = H_entry q amplitudes k.
Proof.
  intros HN Hq Hlen.
  destruct (H_loop_prefix N q amplitudes (2 ^ N) HN Hq Hlen ltac:(lia))
    as ([newAmps processed] & Hrun & Hl & Hmem & Hval & _).
  simpl in *. exists newAmps. split.
  { unfold applyGate. simpl. by rewrite Hlen, Hrun. }
  split; [done|]. intros k Hk.
  rewrite (Hval k Hk), decide_True; [done|]. apply Hmem; [done | lia].
Qed.

Definition Bell (id0 id1 : string) (c0 : option Z) : list Gate :=
  [mkGate id0 GateType.H 0 c0 0; mkGate id1 GateType.CNOT 1 (Some 0%Z) 1].

Lemma Bell_idealProbs (id0 id1 : string) (c0 : option Z) :
  ∃ amps, idealAmplitudes 2 (Bell id0 id1 c0) = Some amps
          ∧ map prob amps = [0.5; 0; 0; 0.5]%R.
Proof.
  unfold idealAmplitudes, Bell. simpl sort_by_time.
  change (<[0:={| real := 1; imag := 0 |}]> (replicate (2 ^ 2) {| real := 0; imag := 0 |}))
    with [mkAmp 1 0; mkAmp 0 0; mkAmp 0 0; mkAmp 0 0].
  set (init := [mkAmp 1 0; mkAmp 0 0; mkAmp 0 0; mkAmp 0 0]).
  destruct (H_gate_entries 2 init id0 0 0 c0) as (amps1 & Hrun & Hl & Hval);
    [lia | lia | done |].
  simpl for_of. rewrite Hrun. simpl.
  destruct amps1 as [|a0 [|a1 [|a2 [|a3 [|]]]]]; try done.
  pose proof (Hval 0 ltac:(simpl; lia)) as H0.
  pose proof (Hval 1 ltac:(simpl; lia)) as H1.
  pose proof (Hval 2 ltac:(simpl; lia)) as H2.
  pose proof (Hval 3 ltac:(simpl; lia)) as H3.
  unfold H_entry in *.
  change (bit 0 0) with false in H0. change (partner 0 0) with 1 in H0.
  change (bit 0 1) with true in H1. change (partner 0 1) with 0 in H1.
  change (bit 0 2) with false in H2. change (partner 0 2) with 3 in H2.
  change (bit 0 3) with true in H3. change (partner 0 3) with 2 in H3.
  cbn in H0, H1, H2, H3.
  unfold H_low, H_high, init in H0, H1, H2, H3.
  simpl in H0, H1, H2, H3.
  injection H0 as ->. injection H1 as ->. injection H2 as ->. injection H3 as ->.
  clear Hrun Hval Hl.
  unfold applyGate. simpl.
  eexists. split; [reflexivity|]. simpl. unfold prob. simpl.
  pose proof invSqrt2_sq as Hs.
  f_equal; [nra|]. f_equal; [nra|]. f_equal; [nra|]. f_equal. nra.
Qed.

Lemma toDict_2 (p0 p1 p2 p3 : R) :
  toDict 2 [p0; p1; p2; p3]
  = <["11" := p3]> (<["10" := p2]> (<["01" := p1]> (<["00" := p0]> ∅))).
Proof. reflexivity. Qed.

(** C9. On two qubits the circuit made of a Hadamard gate on qubit 0 at
    time 0 and a ControlledNot gate with target 1 and control 0 at time 1
    has the ideal distribution 00: 0.5, 01: 0, 10: 0, 11: 0.5, whatever the
    noise configuration is. *)
Theorem Bell_state_distribution (id0 id1 : string) (c0 : option Z)
    (noise : NoiseConfig) :
  ∃ result,
    simulate 2 [mkGate id0 GateType.H 0 c0 0;
                mkGate id1 GateType.CNOT 1 (Some 0%Z) 1] noise = Some result
    ∧ probabilities result
      = {[ "00" := 0.5%R; "01" := 0%R; "10" := 0%R; "11" := 0.5%R ]}.
Proof.
  destruct (Bell_idealProbs id0 id1 c0) as (amps & Hrun & Hprobs).
  unfold Bell in Hrun. unfold simulate. rewrite Hrun. simpl.
  eexists. split; [done|]. simpl. rewrite Hprobs, toDict_2.
  rewrite <- insert_empty.
  apply map_eq. intros k.
  rewrite !lookup_insert. repeat case_decide; congruence.
Qed.

(** ** Fidelity *)

Section Fidelity.
Local Open Scope R_scope.

(** A probability vector: non-negative entries that sum to 1. *)
Definition distribution (probs : list R) : Prop :=
  Forall (Rle 0) probs ∧ sum probs = 1.

(** The overlap of [calculateFidelity], entry by entry. *)
Definition overlap (ideal noisy : list R) : R :=
  sum (zip_with (fun a b => sqrt (a * b)) ideal noisy).

Lemma fold_left_add {A} (f : A → R) (l : list A) (a : R) :
  fold_left (fun acc i => acc + f i) l a = a + sum (map f l).
Proof.
  revert a. induction l as [|x l IH]; intros a; simpl.
  - rewrite sum_nil. lra.
  - rewrite IH, sum_cons. lra.
Qed.

Lemma map_nth_seq (f : R → R → R) (ideal noisy : list R) :
  length noisy = length ideal →
  map (fun i => f (nth i ideal 0) (nth i noisy 0)) (seq 0 (length ideal))
  = zip_with f ideal noisy.
Proof.
  revert noisy. induction ideal as [|a ideal IH]; intros [|b noisy] Hlen;
    simpl in *; try done.
  f_equal. rewrite <- seq_shift, map_map. apply IH. lia.
Qed.

Lemma calculateFidelity_overlap (ideal noisy : list R) :
  length noisy = length ideal →
  calculateFidelity ideal noisy
  = Rmin 1 (overlap ideal noisy * overlap ideal noisy).
Proof.
  intros Hlen. unfold calculateFidelity, overlap.
  rewrite (fold_left_add (fun i => sqrt (nth i ideal 0 * nth i noisy 0))).
  rewrite (map_nth_seq (fun a b => sqrt (a * b))) by done.
  by rewrite Rplus_0_l.
Qed.

(** Arithmetic and geometric means of two non-negative numbers. *)
Lemma sqrt_mul_le (a b : R) :
  0 <= a → 0 <= b →
  sqrt (a * b) <= (a + b) / 2 ∧ (sqrt (a * b) = (a + b) / 2 → a = b).
Proof.
  intros Ha Hb.
  assert (0 <= a * b) as Hab by nra.
  pose proof (sqrt_pos (a * b)) as Hs.
  pose proof (sqrt_sqrt (a * b) Hab) as Hss.
  set (s := sqrt (a * b)) in *.
  pose proof (Rle_0_sqr (a - b)) as Hsq. unfold Rsqr in Hsq.
  split.
  - apply Rnot_lt_le. intros Hlt.
    assert ((a + b) / 2 * ((a + b) / 2) < s * s) by nra. nra.
  - intros Heq. rewrite Heq in Hss.
    assert ((a - b) * (a - b) = 0) as Hz by nra.
    destruct (Rmult_integral _ _ Hz); lra.
Qed.

Lemma overlap_le (ideal noisy : list R) :
  length noisy = length ideal →
  Forall (Rle 0) ideal → Forall (Rle 0) noisy →
  0 <= overlap ideal noisy
  ∧ overlap ideal noisy <= (sum ideal + sum noisy) / 2
  ∧ (overlap ideal noisy = (sum ideal + sum noisy) / 2 → noisy = ideal).
Proof.
  intros Hlen Hi. revert noisy Hlen.
  induction Hi as [|a ideal Ha Hi IH]; intros [|b noisy] Hlen Hn;
    simpl in *; try done.
  - unfold overlap. simpl. rewrite sum_nil. repeat split; lra.
  - inversion Hn as [|? ? Hb Hn']; subst.
    destruct (IH noisy ltac:(lia) Hn') as (H0 & Hle & Heq).
    destruct (sqrt_mul_le a b Ha Hb) as [Hab Hab_eq].
    pose proof (sqrt_pos (a * b)).
    unfold overlap in *. simpl. rewrite !sum_cons.
    split; [lra|]. split; [lra|].
    intros Hsum. f_equal.
    + symmetry. apply Hab_eq. lra.
    + apply Heq. lra.
Qed.

Lemma overlap_diag (ideal : list R) :
  Forall (Rle 0) ideal → overlap ideal ideal = sum ideal.
Proof.
  induction 1 as [|a ideal Ha _ IH]; [done|].
  unfold overlap in *. simpl. rewrite !sum_cons, IH.
  by rewrite sqrt_square.
Qed.

(** The fidelity of two probability vectors lies in [0, 1], and is 1
    exactly when they are equal. *)
Lemma fidelity_distributions (ideal noisy : list R) :
  distribution ideal → distribution noisy → length noisy = length ideal →
  0 <= calculateFidelity ideal noisy <= 1
  ∧ (calculateFidelity ideal noisy = 1 ↔ noisy = ideal).
Proof.
  intros [Hi Hsi] [Hn Hsn] Hlen.
  rewrite calculateFidelity_overlap by done.
  destruct (overlap_le ideal noisy Hlen Hi Hn) as (H0 & Hle & Heq).
  rewrite Hsi, Hsn in *.
  set (o := overlap ideal noisy) in *.
  assert (o * o <= 1) as Hoo by nra.
  rewrite Rmin_right by done.
  split; [nra|]. split.
  - intros H1. apply Heq. nra.
  - intros ->. unfold o. rewrite overlap_diag by done. rewrite Hsi. lra.
Qed.

End Fidelity.

(** ** The noisy distribution *)

Section NoisyDistribution.
Local Open Scope R_scope.

Lemma nth_insert_eq (l : list R) (i : nat) (v : R) :
  (i < length l)%nat → nth i (<[i := v]> l) 0 = v.
Proof. intros Hi. by rewrite nth_lookup, list_lookup_insert_eq. Qed.

Lemma nth_insert_ne (l : list R) (i k : nat) (v : R) :
  i ≠ k → nth k (<[i := v]> l) 0 = nth k l 0.
Proof. intros Hne. by rewrite !nth_lookup, list_lookup_insert_ne. Qed.

Lemma insert_nth_id (l : list R) (i : nat) : <[i := nth i l 0]> l = l.
Proof.
  destruct (l !! i) as [v|] eqn:E.
  - apply list_insert_id. by rewrite nth_lookup, E.
  - apply list_insert_ge. by apply lookup_ge_None.
Qed.

Lemma nth_nonneg (l : list R) (k : nat) : Forall (Rle 0) l → 0 <= nth k l 0.
Proof.
  intros Hl. revert k. induction Hl as [|x l Hx _ IH]; intros [|k]; simpl;
    try lra; try done.
Qed.

Lemma nonneg_of_nth (l : list R) :
  (∀ k, (k < length l)%nat → 0 <= nth k l 0) → Forall (Rle 0) l.
Proof.
  induction l as [|x l IH]; intros Hnth; constructor.
  - apply (Hnth 0%nat). simpl. lia.
  - apply IH. intros k Hk. apply (Hnth (S k)). simpl. lia.
Qed.

Lemma sum_scaled_le (l r : list R) (c : R) :
  length r = length l →
  (∀ k, (k < length l)%nat → nth k l 0 * c <= nth k r 0) →
  sum l * c <= sum r.
Proof.
  revert r. induction l as [|x l IH]; intros [|y r] Hlen Hnth;
    simpl in *; try done.
  - rewrite sum_nil. lra.
  - rewrite !sum_cons.
    pose proof (Hnth 0%nat ltac:(lia)) as H0. simpl in H0.
    assert (sum l * c <= sum r); [|lra].
    apply IH; [lia|]. intros k Hk. apply (Hnth (S k)). lia.
Qed.

Lemma sum_map_affine (l : list R) (a b : R) :
  sum (map (fun v => v * a + b) l) = sum l * a + INR (length l) * b.
Proof.
  induction l as [|x l IH].
  - simpl. rewrite sum_nil. lra.
  - cbn [map length]. rewrite !sum_cons, IH, S_INR. lra.
Qed.

Lemma distribution_nonempty (ideal : list R) : distribution ideal → ideal ≠ [].
Proof. intros [_ Hs] ->. rewrite sum_nil in Hs. lra. Qed.

Lemma distribution_head (a : R) (rest : list R) :
  distribution (a :: rest) → 0 <= a <= 1 ∧ Forall (Rle 0) rest ∧ sum rest = 1 - a.
Proof.
  intros [Hnn Hs]. inversion Hnn as [|? ? Ha Hrest]; subst.
  rewrite sum_cons in Hs. pose proof (sum_nonneg rest Hrest).
  repeat split; [lra | lra | done | lra].
Qed.

(** *** The uniform blend (Depolarizing and the fallback branch) *)

Lemma blend_distribution (ideal : list R) (E : R) :
  distribution ideal → 0 <= E <= 1 →
  distribution
    (map (fun val => val * (1 - E) + 1 / INR (length ideal) * E) ideal).
Proof.
  intros Hd HE. pose proof (distribution_nonempty ideal Hd) as Hne.
  destruct Hd as [Hnn Hs].
  assert (0 < INR (length ideal)) as Hn.
  { apply lt_0_INR. destruct ideal; [done | simpl; lia]. }
  assert (0 < 1 / INR (length ideal)) as Hu by (by apply Rdiv_lt_0_compat; [lra|]).
  split.
  - set (u := 1 / INR (length ideal)) in *. clearbody u. clear Hs Hne Hn.
    induction Hnn as [|x l Hx _ IH]; simpl; constructor; [nra | done].
  - rewrite sum_map_affine, Hs. field. lra.
Qed.

(** *** The BitFlip loop *)

Lemma BIT_FLIP_loop (ideal : list R) (f : R) (n : nat) :
  0 <= f <= 1 → Forall (Rle 0) ideal → (n ≤ length ideal)%nat →
  let r := fold_left (BIT_FLIP_body (length ideal) f) (seq 0 n) ideal in
  length r = length ideal
  ∧ (∀ k, (n ≤ k)%nat → nth k r 0 = nth k ideal 0)
  ∧ (∀ k, (k < n)%nat → nth k ideal 0 * (1 - f) <= nth k r 0).
Proof.
  intros Hf Hnn. induction n as [|n IH]; intros Hn r.
  - subst r. simpl. split; [done|]. split; [done|]. intros k Hk. lia.
  - destruct (IH ltac:(lia)) as (Hl & Hhigh & Hlow).
    subst r. rewrite seq_S, fold_left_app. simpl.
    set (r := fold_left (BIT_FLIP_body (length ideal) f) (seq 0 n) ideal) in *.
    unfold BIT_FLIP_body.
    set (j := (length ideal - 1 - n)%nat).
    assert (0 <= nth j r 0) as Hj.
    { destruct (Nat.lt_ge_cases j n) as [Hjn|Hjn].
      - pose proof (Hlow j Hjn). pose proof (nth_nonneg ideal j Hnn). nra.
      - rewrite (Hhigh j Hjn). by apply nth_nonneg. }
    split; [by rewrite length_insert|]. split.
    + intros k Hk. rewrite nth_insert_ne by lia. apply Hhigh. lia.
    + intros k Hk. destruct (decide (k = n)) as [->|Hne].
      * rewrite nth_insert_eq by lia.
        rewrite (Hhigh n) by lia. nra.
      * rewrite nth_insert_ne by lia. apply Hlow. lia.
Qed.

Lemma BIT_FLIP_positive (ideal : list R) (f : R) :
  0 <= f <= 1 → distribution ideal →
  let r := fold_left (BIT_FLIP_body (length ideal) f)
             (seq 0 (length ideal)) ideal in
  length r = length ideal ∧ Forall (Rle 0) r ∧ 1 - f <= sum r.
Proof.
  intros Hf [Hnn Hs] r.
  destruct (BIT_FLIP_loop ideal f (length ideal) Hf Hnn ltac:(lia))
    as (Hl & _ & Hlow).
  fold r in Hl, Hlow. split; [done|]. split.
  - apply nonneg_of_nth. intros k Hk. rewrite Hl in Hk.
    pose proof (Hlow k Hk). pose proof (nth_nonneg ideal k Hnn). nra.
  - replace (1 - f) with (sum ideal * (1 - f)) by (rewrite Hs; lra).
    by apply sum_scaled_le.
Qed.

(** What the loop computes, entry by entry: an index whose partner comes
    later in the array is blended with the ideal value of the partner, an
    index whose partner comes earlier is blended with the value the loop has
    already stored there. *)
Lemma BIT_FLIP_entries (ideal : list R) (f : R) (n : nat) :
  (n ≤ length ideal)%nat →
  let states := length ideal in
  let r := fold_left (BIT_FLIP_body states f) (seq 0 n) ideal in
  length r = states
  ∧ (∀ k, (n ≤ k)%nat → nth k r 0 = nth k ideal 0)
  ∧ (∀ k, (k < n)%nat →
       nth k r 0
       = nth k ideal 0 * (1 - f)
         + (if (states - 1 - k <? k)%nat then nth (states - 1 - k) r 0
            else nth (states - 1 - k) ideal 0) * f).
Proof.
  intros Hn states. revert Hn. induction n as [|n IH]; intros Hn r.
  - subst r. simpl. split; [done|]. split; [done|]. intros k Hk. lia.
  - destruct (IH ltac:(lia)) as (Hl & Hhigh & Hlow).
    subst r. rewrite seq_S, fold_left_app. simpl.
    set (r := fold_left (BIT_FLIP_body states f) (seq 0 n) ideal) in *.
    unfold BIT_FLIP_body. fold states in Hn.
    split; [by rewrite length_insert|]. split.
    + intros k Hk. rewrite nth_insert_ne by lia. apply Hhigh. lia.
    + intros k Hk. destruct (decide (k = n)) as [->|Hne].
      * rewrite nth_insert_eq by lia. rewrite (Hhigh n) by lia.
        destruct (Nat.ltb_spec (states - 1 - n) n) as [Hj|Hj].
        -- by rewrite nth_insert_ne by lia.
        -- by rewrite (Hhigh (states - 1 - n)%nat) by lia.
      * rewrite nth_insert_ne by lia. rewrite (Hlow k) by lia.
        destruct (Nat.ltb_spec (states - 1 - k) k) as [Hj|Hj]; [|done].
        by rewrite nth_insert_ne by lia.
Qed.

(** *** The AmplitudeDamping loop *)

Lemma AMPLITUDE_DAMPING_loop (decay : R) (rest front : list R) :
  fold_left (AMPLITUDE_DAMPING_body decay)
    (seq (length front) (length rest)) (front ++ rest)
  = front ++ map (fun v => v * (1 - decay)) rest.
Proof.
  revert front. induction rest as [|x rest IH]; intros front; simpl; [done|].
  unfold AMPLITUDE_DAMPING_body at 2.
  rewrite nth_middle.
  rewrite insert_app_r_alt by lia. rewrite Nat.sub_diag. simpl.
  replace (front ++ x * (1 - decay) :: rest)
    with ((front ++ [x * (1 - decay)]) ++ rest) by (by rewrite <- app_assoc).
  replace (S (length front)) with (length (front ++ [x * (1 - decay)]))
    by (rewrite length_app; simpl; lia).
  rewrite IH. by rewrite <- app_assoc.
Qed.

Lemma AMPLITUDE_DAMPING_result (a : R) (rest : list R) (noise : NoiseConfig)
    (g : nat) :
  noise_type noise = NoiseType.AMPLITUDE_DAMPING →
  let decay := totalError (probability noise) g * 0.8 in
  perturb (a :: rest) noise g
  = (a + (1 - a) * decay) :: map (fun v => v * (1 - decay)) rest.
Proof.
  intros Hty decay. unfold perturb. rewrite Hty. fold decay.
  cbn [length nth]. rewrite Nat.sub_succ, Nat.sub_0_r.
  change (<[0%nat:=a + (1 - a) * decay]> (a :: rest))
    with ([a + (1 - a) * decay] ++ rest).
  apply (AMPLITUDE_DAMPING_loop decay rest [a + (1 - a) * decay]).
Qed.

End NoisyDistribution.

Section NoisyFidelity.
Local Open Scope R_scope.

Lemma sum_map_scale (l : list R) (c : R) :
  sum (map (fun v => v * c) l) = sum l * c.
Proof.
  induction l as [|x l IH]; simpl; [rewrite sum_nil; lra|].
  rewrite !sum_cons, IH. lra.
Qed.

Lemma scale_nonneg (l : list R) (c : R) :
  0 <= c → Forall (Rle 0) l → Forall (Rle 0) (map (fun v => v * c) l).
Proof.
  intros Hc. induction 1 as [|x l Hx _ IH]; simpl; constructor; [nra | done].
Qed.

Lemma div_nonneg (l : list R) (s : R) :
  Forall (Rle 0) l → 0 < s → Forall (Rle 0) (map (fun v => v / s) l).
Proof.
  intros Hl Hs. induction Hl as [|x l Hx _ IH]; simpl.
  - constructor.
  - constructor; [|done]. apply Rmult_le_pos; [done|].
    apply Rlt_le. by apply Rinv_0_lt_compat.
Qed.

(** The perturbed vector of a probability vector has the same length,
    non-negative entries and a positive sum. *)
Lemma perturb_positive (ideal : list R) (noise : NoiseConfig) (g : nat) :
  distribution ideal → 0 <= probability noise <= 1 →
  let r := perturb ideal noise g in
  length r = length ideal ∧ Forall (Rle 0) r ∧ 0 < sum r.
Proof.
  intros Hd Hp r. pose proof (totalError_range _ g Hp) as HE.
  assert (noise_type noise = NoiseType.BIT_FLIP
          ∨ noise_type noise = NoiseType.AMPLITUDE_DAMPING
          ∨ r = map (fun val => val * (1 - totalError (probability noise) g)
                                + 1 / INR (length ideal)
                                  * totalError (probability noise) g) ideal)
    as [Hty|[Hty|Hr]].
  { unfold r, perturb. destruct (noise_type noise); auto. }
  - unfold r, perturb. rewrite Hty.
    destruct (BIT_FLIP_positive ideal
                (totalError (probability noise) g * 0.4) ltac:(lra) Hd)
      as (Hl & Hnn & Hs).
    split; [done|]. split; [done|]. lra.
  - destruct ideal as [|a rest]; [by destruct (distribution_nonempty [] Hd)|].
    destruct (distribution_head a rest Hd) as (Ha & Hrest & Hsum).
    unfold r. rewrite (AMPLITUDE_DAMPING_result a rest noise g Hty).
    set (decay := totalError (probability noise) g * 0.8).
    assert (0 <= decay <= 1) as Hdecay by (unfold decay; lra).
    split; [by simpl; rewrite length_map|]. split.
    + constructor; [nra|]. apply scale_nonneg; [lra | done].
    + rewrite sum_cons, sum_map_scale, Hsum. nra.
  - rewrite Hr. destruct (blend_distribution ideal _ Hd HE) as [Hnn Hs].
    split; [by rewrite length_map|]. split; [done|]. lra.
Qed.

Lemma applyNoiseModel_distribution (ideal : list R) (noise : NoiseConfig)
    (g : nat) :
  distribution ideal → 0 <= probability noise <= 1 →
  distribution (applyNoiseModel ideal noise g)
  ∧ length (applyNoiseModel ideal noise g) = length ideal.
Proof.
  intros Hd Hp. destruct (perturb_positive ideal noise g Hd Hp) as (Hl & Hnn & Hs).
  unfold applyNoiseModel.
  set (r := perturb ideal noise g) in *. unfold or_1.
  destruct (Req_dec_T (sum r) 0) as [Hz|Hnz]; [lra|].
  split; [split|].
  - apply div_nonneg; [done | lra].
  - rewrite sum_map_div. by apply Rdiv_diag.
  - by rewrite length_map.
Qed.

Lemma fold_left_skip {A B} (f : A → B → A) (l : list B) (a : A) :
  (∀ x b, f x b = x) → fold_left f l a = a.
Proof. intros Hf. induction l as [|b l IH]; simpl; [done|]. by rewrite Hf. Qed.

(** Without error the noise engine returns the ideal vector. *)
Lemma perturb_no_error (ideal : list R) (noise : NoiseConfig) (g : nat) :
  totalError (probability noise) g = 0 → perturb ideal noise g = ideal.
Proof.
  intros HE.
  assert (∀ u, map (fun val => val * (1 - 0) + u * 0) ideal = ideal) as Hblend.
  { intros u. induction ideal as [|x l IH]; simpl; [done|].
    rewrite IH. f_equal. lra. }
  unfold perturb. rewrite HE. destruct (noise_type noise); try apply Hblend.
  - replace (<[0%nat:=nth 0 ideal 0 + (1 - nth 0 ideal 0) * (0 * 0.8)]> ideal)
      with ideal.
    2:{ rewrite <- (insert_nth_id ideal 0) at 1. f_equal. lra. }
    apply fold_left_skip. intros x i. unfold AMPLITUDE_DAMPING_body.
    rewrite <- (insert_nth_id x i) at 3. f_equal. lra.
  - apply fold_left_skip. intros x i. unfold BIT_FLIP_body.
    rewrite <- (insert_nth_id x i) at 4. f_equal. lra.
Qed.

Lemma applyNoiseModel_no_error (ideal : list R) (noise : NoiseConfig) (g : nat) :
  sum ideal = 1 → totalError (probability noise) g = 0 →
  applyNoiseModel ideal noise g = ideal.
Proof.
  intros Hs HE. unfold applyNoiseModel. rewrite perturb_no_error by done.
  rewrite Hs. unfold or_1. destruct (Req_dec_T 1 0); [lra|]. apply map_div_1.
Qed.

End NoisyFidelity.






(** * Further properties of the simulator *)

(** ** The swap gates, entry by entry *)

Section SwapEntries.
Variables (N : nat) (q : Z) (amplitudes : list Amp).
Hypothesis HN : N ≤ 31.
Hypothesis Hq : (0 <= q < Z.of_nat N)%Z.
Hypothesis Hlen : length amplitudes = 2 ^ N.

(** [sel] tells which indices a loop swaps with their partner; it does not
    separate the two members of a pair. *)
Variable sel : nat → bool.
Hypothesis Hsel : ∀ k, sel (partner q k) = sel k.

(** The common shape of the X and CNOT loop bodies. *)
Definition guarded_swap (i : nat) (newAmps : list Amp) : option (list Amp) :=
  if sel i then
    if (Z.of_nat i <? Z.of_nat (partner q i))%Z
    then swap newAmps (Z.of_nat i) (Z.of_nat (partner q i))
    else Some newAmps
  else Some newAmps.

(** Before iteration [i] the pairs with a member below [i] are swapped, if
    selected, and the other entries are the original ones. *)
Definition met (i k : nat) : bool := (k <? i) || (partner q k <? i).

Definition swap_entries_inv (i : nat) (newAmps : list Amp) : Prop :=
  length newAmps = 2 ^ N
  ∧ ∀ k, k < 2 ^ N →
      newAmps !! k = if sel k && met i k then amplitudes !! partner q k
                     else amplitudes !! k.

Lemma met_S (i k : nat) :
  k ≠ i → partner q k ≠ i → met (S i) k = met i k.
Proof.
  intros Hk Hp. unfold met.
  destruct (Nat.ltb_spec k (S i)), (Nat.ltb_spec k i),
    (Nat.ltb_spec (partner q k) (S i)), (Nat.ltb_spec (partner q k) i);
    simpl; try done; lia.
Qed.

Lemma guarded_swap_step (i : nat) (newAmps : list Amp) :
  i < 2 ^ N → swap_entries_inv i newAmps →
  ∃ s', guarded_swap i newAmps = Some s' ∧ swap_entries_inv (S i) s'.
Proof.
  intros Hi [Hl Hval].
  pose proof (partner_lt N q HN Hq i Hi) as Hj.
  pose proof (partner_ne N q HN Hq i) as Hne.
  pose proof (partner_involutive N q HN Hq) as Hinv.
  unfold guarded_swap. destruct (sel i) eqn:Hs.
  - destruct (Z.ltb_spec (Z.of_nat i) (Z.of_nat (partner q i))) as [Hlt|Hge].
    + pose proof (Hinv i) as Hpj. pose proof (Hsel i) as Hsj.
      remember (partner q i) as j eqn:Ej.
      assert (met i i = false) as Hmi.
      { unfold met. rewrite <- Ej.
        destruct (Nat.ltb_spec i i), (Nat.ltb_spec j i); simpl; try done; lia. }
      assert (met i j = false) as Hmj.
      { unfold met. rewrite Hpj.
        destruct (Nat.ltb_spec i i), (Nat.ltb_spec j i); simpl; try done; lia. }
      destruct (lookup_lt_is_Some_2 amplitudes i) as [ai Hai]; [lia|].
      destruct (lookup_lt_is_Some_2 amplitudes j) as [aj Haj]; [lia|].
      assert (newAmps !! i = Some ai) as Hni.
      { by rewrite (Hval i Hi), Hmi, andb_false_r. }
      assert (newAmps !! j = Some aj) as Hnj.
      { by rewrite (Hval j Hj), Hmj, andb_false_r. }
      unfold swap. rewrite !get_of_nat, Hni, Hnj. simpl.
      rewrite set_of_nat by lia. simpl.
      rewrite set_of_nat by (rewrite length_insert; lia).
      eexists. split; [done|]. split; [by rewrite !length_insert|].
      intros k Hk. destruct (decide (k = j)) as [->|Hkj].
      * rewrite list_lookup_insert_eq by (rewrite length_insert; lia).
        rewrite Hsj, Hs. unfold met. rewrite Hpj.
        destruct (Nat.ltb_spec i (S i)); [|lia]. by rewrite orb_true_r.
      * rewrite list_lookup_insert_ne by done.
        destruct (decide (k = i)) as [->|Hki].
        -- rewrite list_lookup_insert_eq by lia. rewrite Hs. unfold met.
           destruct (Nat.ltb_spec i (S i)); [|lia]. by rewrite <- Ej.
        -- rewrite list_lookup_insert_ne by done. rewrite (Hval k Hk).
           rewrite met_S; [done | done |]. intros Hp. apply Hkj.
           by rewrite <- (Hinv k), Hp.
    + exists newAmps. split; [done|]. split; [done|].
      intros k Hk. rewrite (Hval k Hk).
      assert (partner q i < i) as Hlt by lia.
      destruct (decide (k = i)) as [->|Hki].
      { unfold met. destruct (Nat.ltb_spec (partner q i) i); [|lia].
        destruct (Nat.ltb_spec (partner q i) (S i)); [|lia].
        by rewrite !orb_true_r. }
      destruct (decide (partner q k = i)) as [Hp|Hp]; [|by rewrite met_S].
      assert (k < i) by (rewrite <- (Hinv k), Hp; done).
      unfold met. destruct (Nat.ltb_spec k i); [|lia].
      destruct (Nat.ltb_spec k (S i)); [|lia]. done.
  - exists newAmps. split; [done|]. split; [done|].
    intros k Hk. rewrite (Hval k Hk).
    destruct (decide (k = i)) as [->|Hki]; [by rewrite Hs|].
    destruct (decide (partner q k = i)) as [Hp|Hp]; [|by rewrite met_S].
    assert (sel k = false) as -> by (by rewrite <- Hsel, Hp). done.
Qed.

Lemma guarded_swap_loop (body : nat → list Amp → option (list Amp)) :
  (∀ i s, i < 2 ^ N → body i s = guarded_swap i s) →
  ∃ newAmps,
    JS.for_ (length amplitudes) body amplitudes = Some newAmps
    ∧ length newAmps = 2 ^ N
    ∧ ∀ k, k < 2 ^ N →
        newAmps !! k = if sel k then amplitudes !! partner q k
                       else amplitudes !! k.
Proof.
  intros Hbody. unfold JS.for_.
  destruct (for_from_invariant swap_entries_inv body
              (length amplitudes) 0 amplitudes) as (s' & Hrun & Hl & Hval).
  - split; [done|]. intros k Hk. unfold met. simpl.
    destruct (Nat.ltb_spec (partner q k) 0); [lia|].
    by rewrite andb_false_r.
  - intros i s Hi Hs. rewrite Hbody by lia. apply guarded_swap_step; [lia|done].
  - exists s'. split; [done|]. split; [done|].
    intros k Hk. rewrite (Hval k Hk). simpl. rewrite Hlen.
    unfold met. destruct (Nat.ltb_spec k (2 ^ N)); [|lia].
    by rewrite andb_true_r.
Qed.

End SwapEntries.

Lemma list_eq_inside {A} (l1 l2 : list A) (n : nat) :
  length l1 = n → length l2 = n →
  (∀ k, k < n → l1 !! k = l2 !! k) → l1 = l2.
Proof.
  intros H1 H2 Hk. apply list_eq. intros k.
  destruct (Nat.lt_ge_cases k n) as [Hlt|Hge]; [by apply Hk|].
  rewrite !lookup_ge_None_2; [done | lia | lia].
Qed.

(** A control bit other than the target bit is the same at both members of
    a pair. *)
Lemma bit_partner_other (N : nat) (q c : Z) (k : nat) :
  N ≤ 31 → (0 <= q < Z.of_nat N)%Z → (0 <= c)%Z → c ≠ q →
  bit c (partner q k) = bit c k.
Proof.
  intros HN Hq Hc Hne. unfold bit.
  rewrite (partner_Z N q HN Hq), Z.lxor_spec.
  rewrite Z.pow2_bits_false by lia. by rewrite xorb_false_r.
Qed.

(** The X gate as a whole: every index receives the entry of its partner. *)
Lemma X_gate_entries (N : nat) (amplitudes : list Amp) (g : Gate) :
  N ≤ 31 → (0 <= qubit g < Z.of_nat N)%Z → length amplitudes = 2 ^ N →
  type g = GateType.X →
  ∃ newAmps,
    applyGate amplitudes g = Some newAmps
    ∧ length newAmps = 2 ^ N
    ∧ ∀ k, k < 2 ^ N → newAmps !! k = amplitudes !! partner (qubit g) k.
Proof.
  intros HN Hq Hlen Hty.
  destruct (guarded_swap_loop N (qubit g) amplitudes HN Hq Hlen
              (fun _ => true) (fun _ => eq_refl) (X_body g))
    as (newAmps & Hrun & Hl & Hval).
  { intros i s Hi. unfold X_body, guarded_swap.
    by rewrite (shl_mask N _ HN Hq), (xor_mask N _ HN Hq i Hi). }
  exists newAmps. split; [|done].
  unfold applyGate. by rewrite Hty.
Qed.

(** The CNOT gate as a whole, for a control qubit other than the target. *)
Lemma CNOT_gate_entries (N : nat) (amplitudes : list Amp) (g : Gate) (c : Z) :
  N ≤ 31 → (0 <= qubit g < Z.of_nat N)%Z → length amplitudes = 2 ^ N →
  type g = GateType.CNOT → control g = Some c →
  (0 <= c < Z.of_nat N)%Z → c ≠ qubit g →
  ∃ newAmps,
    applyGate amplitudes g = Some newAmps
    ∧ length newAmps = 2 ^ N
    ∧ ∀ k, k < 2 ^ N →
        newAmps !! k = if bit c k then amplitudes !! partner (qubit g) k
                       else amplitudes !! k.
Proof.
  intros HN Hq Hlen Hty Hctl Hc Hne.
  destruct (guarded_swap_loop N (qubit g) amplitudes HN Hq Hlen
              (bit c)
              (fun k => bit_partner_other N (qubit g) c k HN Hq
                          (proj1 Hc) Hne)
              (CNOT_body (JS.shl 1 c) (JS.shl 1 (qubit g))))
    as (newAmps & Hrun & Hl & Hval).
  { intros i s Hi. unfold CNOT_body, guarded_swap.
    rewrite (shl_mask N c HN Hc), (and_mask_zero N c HN Hc i Hi).
    by rewrite (shl_mask N _ HN Hq), (xor_mask N _ HN Hq i Hi). }
  exists newAmps. split; [|done].
  unfold applyGate. by rewrite Hty, Hctl.
Qed.

(** ** What the gates do, and undo *)

(** X1. On a register of [N <= 31] qubits an X gate with target [q] in
    [0, N) succeeds, keeps the length, and gives every index [i] the entry
    that the argument array has at [i ^ (1 << q)]. *)
Theorem PauliX_exchanges_pairs (N : nat) (amplitudes : list Amp)
    (gid : string) (q t : Z) (c : option Z) :
  N ≤ 31 → (0 <= q < Z.of_nat N)%Z → length amplitudes = 2 ^ N →
  ∃ newAmps,
    applyGate amplitudes (mkGate gid GateType.X q c t) = Some newAmps
    ∧ length newAmps = length amplitudes
    ∧ ∀ i : nat, i < length amplitudes →
        JS.get newAmps (Z.of_nat i)
        = JS.get amplitudes (JS.xor (Z.of_nat i) (JS.shl 1 q)).
Proof.
  intros HN Hq Hlen.
  destruct (X_gate_entries N amplitudes (mkGate gid GateType.X q c t)
              HN Hq Hlen eq_refl) as (newAmps & Hrun & Hl & Hval).
  exists newAmps. split; [done|]. split; [congruence|].
  intros i Hi. rewrite Hlen in Hi. simpl in Hval.
  rewrite (shl_mask N q HN Hq), (xor_mask N q HN Hq i Hi), !get_of_nat.
  by apply Hval.
Qed.

Lemma PauliX_exchanges_pairs_witness :
  ∃ newAmps,
    applyGate [mkAmp 1 0; mkAmp 0 0] (mkGate "x" GateType.X 0 None 0)
      = Some newAmps
    ∧ length newAmps = 2.
Proof.
  destruct (PauliX_exchanges_pairs 1 [mkAmp 1 0; mkAmp 0 0] "x" 0 0 None)
    as (newAmps & Hrun & Hl & _); [lia | lia | reflexivity |].
  exists newAmps. split; [exact Hrun | exact Hl].
Defined.

(** X2. On a register of [N <= 31] qubits a CNOT gate with target [q] and a
    control [c] other than [q], both in [0, N), gives every index whose
    control bit is set the entry of the argument array at [i ^ (1 << q)],
    and leaves the entries of the other indices as they are. *)
Theorem CNOT_exchanges_controlled_pairs (N : nat) (amplitudes : list Amp)
    (gid : string) (q c t : Z) :
  N ≤ 31 → (0 <= q < Z.of_nat N)%Z → (0 <= c < Z.of_nat N)%Z → c ≠ q →
  length amplitudes = 2 ^ N →
  ∃ newAmps,
    applyGate amplitudes (mkGate gid GateType.CNOT q (Some c) t) = Some newAmps
    ∧ length newAmps = length amplitudes
    ∧ ∀ i : nat, i < length amplitudes →
        JS.get newAmps (Z.of_nat i)
        = if negb (JS.and (Z.of_nat i) (JS.shl 1 c) =? 0)%Z
          then JS.get amplitudes (JS.xor (Z.of_nat i) (JS.shl 1 q))
          else JS.get amplitudes (Z.of_nat i).
Proof.
  intros HN Hq Hc Hne Hlen.
  destruct (CNOT_gate_entries N amplitudes
              (mkGate gid GateType.CNOT q (Some c) t) c
              HN Hq Hlen eq_refl eq_refl Hc Hne)
    as (newAmps & Hrun & Hl & Hval).
  exists newAmps. split; [done|]. split; [congruence|].
  intros i Hi. rewrite Hlen in Hi. simpl in Hval.
  rewrite (shl_mask N c HN Hc), (and_mask_zero N c HN Hc i Hi).
  rewrite (shl_mask N q HN Hq), (xor_mask N q HN Hq i Hi), !get_of_nat.
  by apply Hval.
Qed.

Lemma CNOT_exchanges_controlled_pairs_witness :
  ∃ newAmps,
    applyGate [mkAmp 0 0; mkAmp 1 0; mkAmp 0 0; mkAmp 0 0]
      (mkGate "cx" GateType.CNOT 1 (Some 0%Z) 0) = Some newAmps
    ∧ length newAmps = 4.
Proof.
  destruct (CNOT_exchanges_controlled_pairs 2
              [mkAmp 0 0; mkAmp 1 0; mkAmp 0 0; mkAmp 0 0] "cx" 1 0 0)
    as (newAmps & Hrun & Hl & _); [lia | lia | lia | lia | reflexivity |].
  exists newAmps. split; [exact Hrun | exact Hl].
Defined.

(** A CNOT gate whose control is its target never swaps. *)
Lemma CNOT_same_qubit (amplitudes : list Amp) (q : Z) :
  JS.for_ (length amplitudes) (CNOT_body (JS.shl 1 q) (JS.shl 1 q)) amplitudes
  = Some amplitudes.
Proof.
  apply for_from_skip. intros i. unfold CNOT_body.
  destruct (Z.eqb_spec (JS.and (Z.of_nat i) (JS.shl 1 q)) 0) as [|Hne];
    simpl; [done|].
  apply partner_below in Hne.
  destruct (Z.ltb_spec (Z.of_nat i) (JS.xor (Z.of_nat i) (JS.shl 1 q)));
    [lia | done].
Qed.

(** Closes [((a + b) * s ± (a - b) * s) * s = c] from [s * s = 1 / 2]. *)
Ltac half_twice Hs :=
  match goal with
  | |- ?l = ?r =>
      replace l with (2 * r * (invSqrt2 * invSqrt2))%R by ring;
      rewrite Hs; lra
  end.

Lemma H_twice_entry (N : nat) (q : Z) (amplitudes mid : list Amp) (k : nat) :
  N ≤ 31 → (0 <= q < Z.of_nat N)%Z → length amplitudes = 2 ^ N →
  (∀ k, k < 2 ^ N → mid !! k = H_entry q amplitudes k) →
  k < 2 ^ N →
  H_entry q mid k = amplitudes !! k.
Proof.
  intros HN Hq Hlen Hmid Hk.
  pose proof (partner_lt N q HN Hq k Hk) as Hj.
  pose proof (partner_involutive N q HN Hq k) as Hinv.
  pose proof (partner_bit N q HN Hq k) as Hbj.
  pose proof (Hmid k Hk) as Hmk. pose proof (Hmid _ Hj) as Hmj.
  destruct (lookup_lt_is_Some_2 amplitudes k) as [[rk ik] Hak]; [lia|].
  destruct (lookup_lt_is_Some_2 amplitudes (partner q k)) as [[rj ij] Haj];
    [lia|].
  pose proof invSqrt2_sq as Hs.
  unfold H_entry in *. rewrite Hbj, Hinv in Hmj.
  destruct (bit q k); simpl in Hmj;
    unfold H_low, H_high in *; rewrite !get_of_nat in *;
    rewrite Hak, Haj in Hmk, Hmj; simpl in Hmk, Hmj;
    rewrite Hmk, Hmj, Hak; simpl; f_equal; f_equal; half_twice Hs.
Qed.

(** X3. On a register of [N <= 31] qubits every gate of an [N]-qubit circuit
    undoes itself: applied twice, it returns the amplitudes it started from
    (X and CNOT swap back, Hadamard is its own inverse over the reals, the
    other kinds do nothing). *)
Theorem gates_are_involutions (N : nat) (amplitudes : list Amp) (g : Gate) :
  N ≤ 31 → length amplitudes = 2 ^ N →
  (0 <= qubit g < Z.of_nat N)%Z →
  (∀ c, control g = Some c → (0 <= c < Z.of_nat N)%Z) →
  ∃ mid, applyGate amplitudes g = Some mid
         ∧ applyGate mid g = Some amplitudes.
Proof.
  intros HN Hlen Hq Hctl.
  destruct g as [gid ty q c t]. simpl in *.
  destruct ty; try (by exists amplitudes).
  - destruct (H_gate_entries N amplitudes gid q t c HN Hq Hlen)
      as (mid & Hrun & Hl & Hval).
    destruct (H_gate_entries N mid gid q t c HN Hq Hl)
      as (back & Hrun' & Hl' & Hval').
    exists mid. split; [done|]. rewrite Hrun'. f_equal.
    apply (list_eq_inside _ _ (2 ^ N)); [done | done |].
    intros k Hk. rewrite (Hval' k Hk).
    by apply (H_twice_entry N q amplitudes mid k).
  - destruct (X_gate_entries N amplitudes (mkGate gid GateType.X q c t)
                HN Hq Hlen eq_refl) as (mid & Hrun & Hl & Hval).
    destruct (X_gate_entries N mid (mkGate gid GateType.X q c t)
                HN Hq Hl eq_refl) as (back & Hrun' & Hl' & Hval').
    exists mid. split; [done|]. rewrite Hrun'. f_equal. simpl in *.
    apply (list_eq_inside _ _ (2 ^ N)); [done | done |].
    intros k Hk. rewrite (Hval' k Hk).
    rewrite (Hval _ (partner_lt N q HN Hq k Hk)).
    by rewrite (partner_involutive N q HN Hq).
  - destruct c as [c|]; [|by exists amplitudes].
    pose proof (Hctl c eq_refl) as Hc.
    destruct (decide (c = q)) as [->|Hne].
    { exists amplitudes. unfold applyGate. simpl.
      by rewrite CNOT_same_qubit. }
    destruct (CNOT_gate_entries N amplitudes
                (mkGate gid GateType.CNOT q (Some c) t) c
                HN Hq Hlen eq_refl eq_refl Hc Hne)
      as (mid & Hrun & Hl & Hval).
    destruct (CNOT_gate_entries N mid
                (mkGate gid GateType.CNOT q (Some c) t) c
                HN Hq Hl eq_refl eq_refl Hc Hne)
      as (back & Hrun' & Hl' & Hval').
    exists mid. split; [done|]. rewrite Hrun'. f_equal. simpl in *.
    apply (list_eq_inside _ _ (2 ^ N)); [done | done |].
    intros k Hk. rewrite (Hval' k Hk).
    pose proof (bit_partner_other N q c k HN Hq (proj1 Hc) Hne) as Hb.
    destruct (bit c k) eqn:E; [|by rewrite (Hval k Hk), E].
    rewrite (Hval _ (partner_lt N q HN Hq k Hk)), Hb.
    by rewrite (partner_involutive N q HN Hq).
Qed.

Lemma gates_are_involutions_witness :
  ∃ mid,
    applyGate [mkAmp 1 0; mkAmp 0 0] (mkGate "h" GateType.H 0 None 0) = Some mid
    ∧ applyGate mid (mkGate "h" GateType.H 0 None 0)
      = Some [mkAmp 1 0; mkAmp 0 0].
Proof.
  apply (gates_are_involutions 1 [mkAmp 1 0; mkAmp 0 0]
           (mkGate "h" GateType.H 0 None 0)).
  - lia.
  - reflexivity.
  - simpl. lia.
  - simpl. intros c Hc. discriminate Hc.
Defined.

(** X4. The gates do not check their target: with a target [q < 31] whose
    mask [1 << q] is not below the length of a non-empty register, the first
    iteration of the X loop reads [newAmps[mask]], which is [undefined], and
    the first iteration of the Hadamard loop reads [amplitudes[mask].real],
    which throws; the embedding answers [None] for both. *)
Theorem target_outside_register (amplitudes : list Amp) (gid : string)
    (q t : Z) (c : option Z) :
  amplitudes ≠ [] → (0 <= q < 31)%Z →
  (Z.of_nat (length amplitudes) <= 2 ^ q)%Z →
  applyGate amplitudes (mkGate gid GateType.X q c t) = None
  ∧ applyGate amplitudes (mkGate gid GateType.H q c t) = None.
Proof.
  intros Hne Hq Hlen.
  destruct amplitudes as [|a0 rest]; [done|].
  assert (0 < 2 ^ q)%Z as Hpos by (apply Z.pow_pos_nonneg; lia).
  assert (2 ^ q <= 2 ^ 30)%Z as Hle by (apply Z.pow_le_mono_r; lia).
  assert (JS.xor (Z.of_nat 0) (JS.shl 1 q) = 2 ^ q)%Z as Hxor.
  { rewrite shl_1_valid by done. unfold JS.xor.
    rewrite !toInt32_small by (simpl; lia). apply Z.lxor_0_l. }
  assert (JS.get (a0 :: rest) (2 ^ q)%Z = None) as Hget.
  { unfold JS.get. destruct (Z.leb_spec 0 (2 ^ q)); [|done].
    apply lookup_ge_None_2. lia. }
  assert (JS.and (Z.of_nat 0) (JS.shl 1 q) = 0)%Z as Hand.
  { unfold JS.and. rewrite (toInt32_small (Z.of_nat 0)) by (simpl; lia).
    apply Z.land_0_l. }
  assert (X_body (mkGate gid GateType.X q c t) 0 (a0 :: rest) = None) as HX.
  { unfold X_body. simpl qubit. rewrite Hxor.
    destruct (Z.ltb_spec (Z.of_nat 0) (2 ^ q)); [|simpl in *; lia].
    unfold swap. rewrite Hget. by destruct (JS.get (a0 :: rest) (Z.of_nat 0)). }
  assert (H_body (a0 :: rest) (JS.shl 1 q) 0 (a0 :: rest, ∅) = None) as HH.
  { unfold H_body. rewrite decide_False by apply not_elem_of_empty.
    rewrite Hxor, Hand. simpl negb. cbv iota.
    unfold H_low. rewrite Hget.
    by destruct (JS.get (a0 :: rest) (Z.of_nat 0)). }
  split.
  - unfold applyGate, JS.for_. cbn [type length JS.for_from].
    by rewrite HX.
  - unfold applyGate, JS.for_. cbn [type qubit length JS.for_from].
    by rewrite HH.
Qed.

Lemma target_outside_register_witness :
  applyGate [mkAmp 1 0; mkAmp 0 0] (mkGate "x" GateType.X 1 None 0) = None.
Proof.
  refine (proj1 (target_outside_register [mkAmp 1 0; mkAmp 0 0] "x" 1 0 None
                   _ _ _)).
  - discriminate.
  - lia.
  - simpl. lia.
Defined.

(** ** The keys of the result dictionaries *)

(** The key that [toDict] gives to index [i]. *)
Definition bitstring (numQubits i : nat) : string :=
  padStart0 numQubits (toString2 i).

(** The number that a string of binary digits denotes, most significant
    digit first, continuing from [acc]. *)
Fixpoint binary_value (s : string) (acc : N) : N :=
  match s with
  | EmptyString => acc
  | String c rest =>
      binary_value rest (2 * acc + if Ascii.eqb c "1" then 1 else 0)%N
  end.

Lemma binary_value_toString2_pos (p : positive) (acc : string) :
  binary_value (toString2_pos p acc) 0 = binary_value acc (Npos p).
Proof.
  revert acc. induction p as [p IH|p IH|]; intros acc; simpl.
  - by rewrite IH.
  - by rewrite IH.
  - done.
Qed.

Lemma binary_value_zeros (k : nat) (s : string) :
  binary_value (zeros k s) 0 = binary_value s 0.
Proof. induction k as [|k IH]; simpl; done. Qed.

Lemma binary_value_bitstring (n i : nat) :
  binary_value (bitstring n i) 0 = N.of_nat i.
Proof.
  unfold bitstring, padStart0. rewrite binary_value_zeros. unfold toString2.
  destruct (N.of_nat i) as [|p]; [done|].
  by rewrite binary_value_toString2_pos.
Qed.

Lemma bitstring_inj (n i j : nat) : bitstring n i = bitstring n j → i = j.
Proof.
  intros Heq. apply Nat2N.inj.
  by rewrite <- (binary_value_bitstring n i), <- (binary_value_bitstring n j), Heq.
Qed.

Lemma length_toString2_pos (p : positive) (acc : string) :
  String.length (toString2_pos p acc) = Pos.size_nat p + String.length acc.
Proof.
  revert acc. induction p as [p IH|p IH|]; intros acc; simpl;
    rewrite ?IH; simpl; lia.
Qed.

Lemma length_zeros (k : nat) (s : string) :
  String.length (zeros k s) = k + String.length s.
Proof. induction k as [|k IH]; simpl; lia. Qed.

Lemma size_nat_le (p : positive) (n : nat) :
  Pos.to_nat p < 2 ^ n → Pos.size_nat p ≤ n.
Proof.
  revert n. induction p as [p IH|p IH|]; intros [|n] Hlt; simpl in *;
    try (rewrite ?Pos2Nat.inj_xI, ?Pos2Nat.inj_xO in Hlt);
    try (pose proof (Pos2Nat.is_pos p)); try lia.
  - apply le_n_S, IH. lia.
  - apply le_n_S, IH. lia.
Qed.

Lemma length_toString2 (n i : nat) :
  1 ≤ n → i < 2 ^ n → String.length (toString2 i) ≤ n.
Proof.
  intros Hn Hi. unfold toString2.
  destruct (N.of_nat i) as [|p] eqn:E; [simpl; lia|].
  rewrite length_toString2_pos. simpl. rewrite Nat.add_0_r.
  apply size_nat_le.
  replace (Pos.to_nat p) with i; [done|].
  apply Nat2N.inj. rewrite E. by rewrite positive_nat_N.
Qed.

(** X5. The key of an index is its binary notation, most significant bit
    first, padded with zeros on the left: it reads back as the index, so
    different indices have different keys, and for an index of an
    [n]-qubit register ([n >= 1]) it has exactly [n] characters. *)
Theorem bitstring_round_trip (n i j : nat) :
  binary_value (bitstring n i) 0 = N.of_nat i
  ∧ (bitstring n i = bitstring n j → i = j)
  ∧ (1 ≤ n → i < 2 ^ n → String.length (bitstring n i) = n).
Proof.
  split; [apply binary_value_bitstring|]. split; [apply bitstring_inj|].
  intros Hn Hi. unfold bitstring, padStart0. rewrite length_zeros.
  pose proof (length_toString2 n i Hn Hi). lia.
Qed.

Lemma bitstring_round_trip_witness :
  String.length (bitstring 3 5) = 3.
Proof.
  refine (proj2 (proj2 (bitstring_round_trip 3 5 5)) _ _).
  - lia.
  - simpl. lia.
Defined.

Lemma toDict_snoc (n : nat) (probs : list R) (p : R) :
  toDict n (probs ++ [p]) = <[bitstring n (length probs) := p]> (toDict n probs).
Proof.
  unfold toDict. rewrite imap_app, fold_left_app. simpl.
  by rewrite Nat.add_0_r.
Qed.

Lemma toDict_lookup (n : nat) (probs : list R) (i : nat) :
  toDict n probs !! bitstring n i = probs !! i.
Proof.
  induction probs as [|p probs IH] using rev_ind; [done|].
  rewrite toDict_snoc. destruct (decide (i = length probs)) as [->|Hne].
  - rewrite lookup_insert_eq. by rewrite list_lookup_middle.
  - rewrite lookup_insert_ne by (intros Heq; by apply bitstring_inj in Heq).
    rewrite IH. destruct (Nat.lt_ge_cases i (length probs)).
    + by rewrite lookup_app_l.
    + rewrite !lookup_ge_None_2; [done | rewrite length_app; simpl; lia | lia].
Qed.

Lemma toDict_size (n : nat) (probs : list R) :
  size (toDict n probs) = length probs.
Proof.
  induction probs as [|x probs IH] using rev_ind; [done|].
  rewrite toDict_snoc, map_size_insert_None.
  - rewrite IH, length_app. simpl. lia.
  - rewrite toDict_lookup. by apply lookup_ge_None_2.
Qed.

(** X6. [toDict] loses nothing and invents nothing: the entry of index [i]
    is found under the key of [i], every entry of the dictionary is the
    entry of some index under its key, and the dictionary has as many
    entries as the array. *)
Theorem toDict_is_the_array (n : nat) (probs : list R) :
  (∀ i, toDict n probs !! bitstring n i = probs !! i)
  ∧ (∀ key p, toDict n probs !! key = Some p →
       ∃ i, key = bitstring n i ∧ probs !! i = Some p)
  ∧ size (toDict n probs) = length probs.
Proof.
  split; [apply toDict_lookup|]. split.
  - induction probs as [|x probs IH] using rev_ind; intros key p Hkey.
    + unfold toDict in Hkey. simpl in Hkey. by rewrite lookup_empty in Hkey.
    + rewrite toDict_snoc in Hkey.
      destruct (decide (bitstring n (length probs) = key)) as [<-|Hne].
      * rewrite lookup_insert_eq in Hkey. injection Hkey as ->.
        exists (length probs). split; [done|]. by rewrite list_lookup_middle.
      * rewrite lookup_insert_ne in Hkey by done.
        destruct (IH key p Hkey) as (i & -> & Hi).
        exists i. split; [done|]. by apply lookup_app_l_Some.
  - apply toDict_size.
Qed.

(** ** The order in which gates are applied *)

Lemma insert_by_time_Forall (P : Gate → Prop) (a : Gate) (sorted : list Gate) :
  P a → Forall P sorted → Forall P (insert_by_time a sorted).
Proof.
  intros Ha. induction 1 as [|b rest Hb Hrest IH]; simpl.
  - by constructor 2.
  - destruct (_ <=? _)%Z.
    + constructor 2; [done|]. by constructor 2.
    + constructor 2; [done|]. by apply IH.
Qed.

Lemma insert_by_time_Permutation (a : Gate) (sorted : list Gate) :
  insert_by_time a sorted ≡ₚ a :: sorted.
Proof.
  induction sorted as [|b rest IH]; simpl; [done|].
  destruct (_ <=? _)%Z; [done|]. rewrite IH. apply Permutation_swap.
Qed.

Lemma insert_by_time_sorted (a : Gate) (sorted : list Gate) :
  StronglySorted (fun x y => time x <= time y)%Z sorted →
  StronglySorted (fun x y => time x <= time y)%Z (insert_by_time a sorted).
Proof.
  induction 1 as [|b rest Hrest IH Hb]; simpl.
  - constructor; [constructor | constructor 1].
  - destruct (Z.leb_spec (time a - time b) 0) as [Hle|Hgt].
    + constructor; [by constructor|]. constructor 2; [lia|].
      eapply Forall_impl; [exact Hb|]. simpl. intros x Hx. lia.
    + constructor; [done|].
      apply insert_by_time_Forall; [lia | done].
Qed.

Lemma insert_by_time_filter (t : Z) (a : Gate) (sorted : list Gate) :
  filter (fun g => time g = t) (insert_by_time a sorted)
  = filter (fun g => time g = t) (a :: sorted).
Proof.
  induction sorted as [|b rest IH]; simpl; [done|].
  destruct (Z.leb_spec (time a - time b) 0) as [Hle|Hgt]; [done|].
  rewrite (filter_cons _ b), IH, !(filter_cons _ a), (filter_cons _ b).
  destruct (decide (time b = t)), (decide (time a = t)); try done. lia.
Qed.

(** X7. The gates are applied in the order of their time steps: the sorted
    circuit is a rearrangement of the circuit in which no gate comes before
    a gate of a smaller time step, and the gates of one time step keep the
    order the circuit gives them. *)
Theorem sort_by_time_stable (gates : list Gate) :
  sort_by_time gates ≡ₚ gates
  ∧ StronglySorted (fun x y => time x <= time y)%Z (sort_by_time gates)
  ∧ ∀ t, filter (fun g => time g = t) (sort_by_time gates)
         = filter (fun g => time g = t) gates.
Proof.
  split; [|split].
  - induction gates as [|a gates IH]; simpl; [done|].
    by rewrite insert_by_time_Permutation, IH.
  - induction gates as [|a gates IH]; simpl; [constructor|].
    by apply insert_by_time_sorted.
  - intros t. induction gates as [|a gates IH]; simpl; [done|].
    rewrite insert_by_time_filter, !(filter_cons _ a), IH. done.
Qed.

Lemma insert_by_time_comm (x y : Gate) (s : list Gate) :
  time x ≠ time y →
  insert_by_time x (insert_by_time y s) = insert_by_time y (insert_by_time x s).
Proof.
  intros Hne. induction s as [|b r IH]; simpl.
  - destruct (Z.leb_spec (time x - time y) 0),
      (Z.leb_spec (time y - time x) 0); try done; lia.
  - destruct (Z.leb_spec (time x - time b) 0) as [Hx|Hx],
      (Z.leb_spec (time y - time b) 0) as [Hy|Hy]; simpl.
    + destruct (Z.leb_spec (time x - time y) 0),
        (Z.leb_spec (time y - time x) 0); try lia;
        destruct (Z.leb_spec (time x - time b) 0),
          (Z.leb_spec (time y - time b) 0); try done; lia.
    + destruct (Z.leb_spec (time x - time b) 0),
        (Z.leb_spec (time y - time x) 0),
        (Z.leb_spec (time y - time b) 0); try done; lia.
    + destruct (Z.leb_spec (time x - time y) 0),
        (Z.leb_spec (time y - time b) 0),
        (Z.leb_spec (time x - time b) 0); try done; lia.
    + destruct (Z.leb_spec (time x - time b) 0),
        (Z.leb_spec (time y - time b) 0); try lia. by rewrite IH.
Qed.

Lemma sort_by_time_distinct (gates gates' : list Gate) :
  gates ≡ₚ gates' → NoDup (map time gates) →
  sort_by_time gates = sort_by_time gates'.
Proof.
  induction 1 as [|a l l' Hperm IH|a b l|l1 l2 l3 H12 IH12 H23 IH23];
    intros Hnd; simpl.
  - done.
  - rewrite IH; [done|]. simpl in Hnd. by apply NoDup_cons_1_2 in Hnd.
  - apply insert_by_time_comm. simpl in Hnd.
    apply NoDup_cons in Hnd as [Hb _]. intros Heq. apply Hb.
    rewrite Heq. apply list_elem_of_here.
  - rewrite IH12 by done. apply IH23.
    by rewrite <- (Permutation_map time H12).
Qed.

(** X8. A circuit whose gates all have different time steps can be given in
    any order: [simulate] returns the same result for every rearrangement of
    its gate list. *)
Theorem simulate_order_insensitive (numQubits : nat) (gates gates' : list Gate)
    (noise : NoiseConfig) :
  gates ≡ₚ gates' → NoDup (map time gates) →
  simulate numQubits gates noise = simulate numQubits gates' noise.
Proof.
  intros Hperm Hnd. unfold simulate, idealAmplitudes.
  rewrite (sort_by_time_distinct gates gates' Hperm Hnd).
  by rewrite (Permutation_length Hperm).
Qed.

Lemma simulate_order_insensitive_witness :
  simulate 2 [mkGate "a" GateType.H 0 None 0;
              mkGate "b" GateType.CNOT 1 (Some 0%Z) 1]
    (mkNoise NoiseType.DEPOLARIZING 0)
  = simulate 2 [mkGate "b" GateType.CNOT 1 (Some 0%Z) 1;
                mkGate "a" GateType.H 0 None 0]
      (mkNoise NoiseType.DEPOLARIZING 0).
Proof.
  apply simulate_order_insensitive.
  - apply Permutation_swap.
  - simpl. repeat constructor.
    + intros Hin. apply list_elem_of_singleton in Hin. discriminate Hin.
    + apply not_elem_of_nil.
Defined.

(** ** A whole simulation *)

Lemma prob_nonneg (amps : list Amp) : Forall (Rle 0) (map prob amps).
Proof.
  induction amps as [|a amps IH]; simpl; constructor; [|done].
  unfold prob. pose proof (pow2_ge_0 (real a)). pose proof (pow2_ge_0 (imag a)).
  lra.
Qed.

Lemma simulate_inside (N : nat) (gates : list Gate) (noise : NoiseConfig) :
  N ≤ 31 → Forall (valid_gate N) gates →
  (0 <= probability noise <= 1)%R →
  ∃ result idealProbs noisyDist,
    simulate N gates noise = Some result
    ∧ distribution idealProbs ∧ length idealProbs = 2 ^ N
    ∧ distribution noisyDist ∧ length noisyDist = 2 ^ N
    ∧ probabilities result = toDict N idealProbs
    ∧ noisyProbabilities result = toDict N noisyDist
    ∧ size (probabilities result) = 2 ^ N
    ∧ size (noisyProbabilities result) = 2 ^ N
    ∧ fidelity result = calculateFidelity idealProbs noisyDist
    ∧ (0 <= fidelity result <= 1)%R
    ∧ qubitCount result = N.
Proof.
  intros HN Hvalid Hp.
  destruct (idealAmplitudes_inside N gates HN Hvalid) as (amps & Hrun & Hl & Ht).
  assert (distribution (map prob amps)) as Hd.
  { split; [apply prob_nonneg | exact Ht]. }
  destruct (applyNoiseModel_distribution (map prob amps) noise (length gates)
              Hd Hp) as [Hdn Hln].
  destruct (fidelity_distributions _ _ Hd Hdn Hln) as [Hrange _].
  unfold simulate. rewrite Hrun. simpl.
  eexists. exists (map prob amps).
  exists (applyNoiseModel (map prob amps) noise (length gates)).
  split; [done|]. simpl. rewrite !toDict_size, Hln, length_map, Hl.
  repeat (split; [done|]). done.
Qed.

(** X9. For a circuit whose gates have their targets in [0, N), [N <= 31],
    and a noise probability in [0, 1], [simulate] returns a result: its two
    dictionaries hold the entries of two probability vectors over the [2^N]
    basis states (non-negative, summing to 1) under their bit-string keys,
    the fidelity is the one of these two vectors and lies in [0, 1], and
    the qubit count is [N]. *)
Theorem simulate_well_formed (N : nat) (gates : list Gate) (noise : NoiseConfig) :
  N ≤ 31 → Forall (valid_gate N) gates →
  (0 <= probability noise <= 1)%R →
  ∃ result idealProbs noisyDist,
    simulate N gates noise = Some result
    ∧ distribution idealProbs ∧ length idealProbs = 2 ^ N
    ∧ distribution noisyDist ∧ length noisyDist = 2 ^ N
    ∧ probabilities result = toDict N idealProbs
    ∧ noisyProbabilities result = toDict N noisyDist
    ∧ size (probabilities result) = 2 ^ N
    ∧ size (noisyProbabilities result) = 2 ^ N
    ∧ fidelity result = calculateFidelity idealProbs noisyDist
    ∧ (0 <= fidelity result <= 1)%R
    ∧ qubitCount result = N.
Proof. apply simulate_inside. Qed.

Lemma simulate_well_formed_witness :
  ∃ result,
    simulate 1 [mkGate "x" GateType.X 0 None 0]
      (mkNoise NoiseType.BIT_FLIP (1 / 2)) = Some result.
Proof.
  destruct (simulate_well_formed 1 [mkGate "x" GateType.X 0 None 0]
              (mkNoise NoiseType.BIT_FLIP (1 / 2)))
    as (result & _ & _ & Hrun & _).
  - lia.
  - constructor; [|constructor]. unfold valid_gate. simpl. lia.
  - simpl. lra.
  - exists result. exact Hrun.
Defined.

(** ** The noise channels on probability vectors *)

Section Channels.
Local Open Scope R_scope.

(** The three kinds that take the uniform blend. *)
Definition blends (k : NoiseType.t) : Prop :=
  k = NoiseType.DEPOLARIZING ∨ k = NoiseType.PHASE_DAMPING
  ∨ k = NoiseType.PHASE_FLIP.

Lemma perturb_blend (ideal : list R) (noise : NoiseConfig) (g : nat) :
  blends (noise_type noise) →
  perturb ideal noise g
  = map (fun val => val * (1 - totalError (probability noise) g)
                    + 1 / INR (length ideal) * totalError (probability noise) g)
      ideal.
Proof. unfold perturb. by intros [-> | [-> | ->]]. Qed.

Lemma map_const (l : list R) (u : R) :
  map (fun val => val * (1 - 1) + u * 1) l = replicate (length l) u.
Proof.
  induction l as [|x l IH]; simpl; [done|].
  rewrite IH. f_equal. lra.
Qed.

(** X10. Under Depolarizing, PhaseDamping or PhaseFlip noise the noisy
    vector of a probability vector is exactly the blend
    [ideal[i] * (1 - totalError) + (1 / S) * totalError]: the blend sums to 1
    and the renormalisation changes nothing.  With probability 1 it is the
    uniform vector, whatever the ideal vector and the gate count are. *)
Theorem uniform_blend_is_exact (ideal : list R) (noise : NoiseConfig)
    (gateCount : nat) :
  distribution ideal → blends (noise_type noise) →
  let E := totalError (probability noise) gateCount in
  applyNoiseModel ideal noise gateCount
  = map (fun val => val * (1 - E) + 1 / INR (length ideal) * E) ideal
  ∧ (probability noise = 1 →
     applyNoiseModel ideal noise gateCount
     = replicate (length ideal) (1 / INR (length ideal))).
Proof.
  intros Hd Hk E.
  pose proof (distribution_nonempty ideal Hd) as Hne.
  assert (0 < INR (length ideal)) as Hn.
  { apply lt_0_INR. destruct ideal; [done | simpl; lia]. }
  assert (applyNoiseModel ideal noise gateCount
          = map (fun val => val * (1 - E) + 1 / INR (length ideal) * E) ideal)
    as Heq.
  { unfold applyNoiseModel. rewrite perturb_blend by done. fold E.
    rewrite sum_map_affine. destruct Hd as [_ ->].
    replace (1 * (1 - E) + INR (length ideal) * (1 / INR (length ideal) * E))
      with 1 by (field; lra).
    unfold or_1. destruct (Req_dec_T 1 0); [lra|]. apply map_div_1. }
  split; [done|]. intros Hp. rewrite Heq.
  assert (E = 1) as ->.
  { unfold E, totalError. rewrite Hp, Rminus_diag, pow_i by lia. lra. }
  apply map_const.
Qed.

Lemma uniform_blend_is_exact_witness :
  applyNoiseModel [1; 0] (mkNoise NoiseType.PHASE_FLIP 1) 2
  = replicate (length [1; 0]) (1 / INR (length [1; 0])).
Proof.
  refine (proj2 (uniform_blend_is_exact [1; 0]
                   (mkNoise NoiseType.PHASE_FLIP 1) 2 _ _) _).
  - split; [repeat constructor; lra | rewrite !sum_cons, sum_nil; lra].
  - right. right. reflexivity.
  - reflexivity.
Defined.

Lemma scaled_le (l : list R) (c : R) :
  0 <= c <= 1 → Forall (Rle 0) l →
  Forall2 Rle (map (fun v => v * c) l) l.
Proof.
  intros Hc. induction 1 as [|x l Hx _ IH]; simpl; constructor; [nra | done].
Qed.

(** X11. Under AmplitudeDamping noise the noisy vector of a probability
    vector is the perturbed vector itself (it sums to 1): the first entry
    becomes [a + (1 - a) * decay] and every other entry is multiplied by
    [1 - decay], with [decay = totalError * 0.8].  For a probability in
    [0, 1] the first entry does not decrease and no other entry increases. *)
Theorem amplitude_damping_moves_to_ground (a : R) (rest : list R)
    (noise : NoiseConfig) (gateCount : nat) :
  distribution (a :: rest) →
  noise_type noise = NoiseType.AMPLITUDE_DAMPING →
  let decay := totalError (probability noise) gateCount * 0.8 in
  applyNoiseModel (a :: rest) noise gateCount
  = (a + (1 - a) * decay) :: map (fun v => v * (1 - decay)) rest
  ∧ (0 <= probability noise <= 1 →
     a <= a + (1 - a) * decay
     ∧ Forall2 Rle (map (fun v => v * (1 - decay)) rest) rest).
Proof.
  intros Hd Hty decay.
  destruct (distribution_head a rest Hd) as (Ha & Hrest & Hsum).
  split.
  - unfold applyNoiseModel.
    rewrite (AMPLITUDE_DAMPING_result a rest noise gateCount Hty). fold decay.
    rewrite sum_cons, sum_map_scale, Hsum.
    replace (a + (1 - a) * decay + (1 - a) * (1 - decay)) with 1 by ring.
    unfold or_1. destruct (Req_dec_T 1 0); [lra|]. apply map_div_1.
  - intros Hp. pose proof (totalError_range _ gateCount Hp) as HE.
    assert (0 <= decay <= 1) as Hdecay by (unfold decay; lra).
    split; [nra|]. apply scaled_le; [lra | done].
Qed.

Lemma amplitude_damping_moves_to_ground_witness :
  applyNoiseModel [0; 1] (mkNoise NoiseType.AMPLITUDE_DAMPING (1 / 2)) 1
  = [0 + (1 - 0) * (totalError (1 / 2) 1 * 0.8);
     1 * (1 - totalError (1 / 2) 1 * 0.8)].
Proof.
  refine (proj1 (amplitude_damping_moves_to_ground 0 [1]
                   (mkNoise NoiseType.AMPLITUDE_DAMPING (1 / 2)) 1 _ _)).
  - split; [repeat constructor; lra | rewrite !sum_cons, sum_nil; lra].
  - reflexivity.
Defined.

(** X12. What the BitFlip loop stores, entry by entry, before the
    renormalisation: index [i] is blended with its partner [S - 1 - i] at the
    rate [flipAmount = totalError * 0.4]; the loop updates the array in
    place, so the partner's value is the ideal one when the partner comes
    later in the array ([i <= S - 1 - i]) and the already blended one when
    it comes earlier. *)
Theorem BIT_FLIP_in_place (ideal : list R) (noise : NoiseConfig)
    (gateCount : nat) (i : nat) :
  noise_type noise = NoiseType.BIT_FLIP → (i < length ideal)%nat →
  let states := length ideal in
  let flipAmount := totalError (probability noise) gateCount * 0.4 in
  let result := perturb ideal noise gateCount in
  length result = states
  ∧ nth i result 0
    = nth i ideal 0 * (1 - flipAmount)
      + (if (states - 1 - i <? i)%nat then nth (states - 1 - i) result 0
         else nth (states - 1 - i) ideal 0) * flipAmount.
Proof.
  intros Hty Hi states flipAmount result.
  destruct (BIT_FLIP_entries ideal flipAmount (length ideal) ltac:(lia))
    as (Hl & _ & Hlow).
  unfold result, perturb. rewrite Hty. fold flipAmount. fold states.
  split; [done|]. by apply Hlow.
Qed.

Lemma BIT_FLIP_in_place_witness :
  length (perturb [1; 0] (mkNoise NoiseType.BIT_FLIP (1 / 2)) 1) = 2%nat.
Proof.
  refine (proj1 (BIT_FLIP_in_place [1; 0] (mkNoise NoiseType.BIT_FLIP (1 / 2))
                   1 1 _ _)).
  - reflexivity.
  - simpl. lia.
Defined.

(** X13. BitFlip noise leaves a vector that is symmetric under the
    complement of the index ([ideal[i] = ideal[S - 1 - i]], as for the Bell
    and GHZ distributions) as it is; if the vector sums to 1 it is the noisy
    vector, whatever the probability and the gate count are. *)
Theorem BIT_FLIP_fixes_symmetric (ideal : list R) (noise : NoiseConfig)
    (gateCount : nat) :
  noise_type noise = NoiseType.BIT_FLIP →
  (∀ i, (i < length ideal)%nat →
        nth i ideal 0 = nth (length ideal - 1 - i) ideal 0) →
  perturb ideal noise gateCount = ideal
  ∧ (sum ideal = 1 → applyNoiseModel ideal noise gateCount = ideal).
Proof.
  intros Hty Hsym.
  set (f := totalError (probability noise) gateCount * 0.4).
  destruct (BIT_FLIP_entries ideal f (length ideal) ltac:(lia))
    as (Hl & _ & Hlow).
  assert (perturb ideal noise gateCount = ideal) as Heq.
  { unfold perturb. rewrite Hty. fold f.
    set (r := fold_left (BIT_FLIP_body (length ideal) f)
                (seq 0 (length ideal)) ideal) in *.
    apply (nth_ext _ _ 0 0); [done|]. rewrite Hl.
    intros k. induction k as [k IH] using lt_wf_ind. intros Hk.
    rewrite (Hlow k Hk).
    destruct (Nat.ltb_spec (length ideal - 1 - k) k) as [Hj|Hj].
    - rewrite (IH _ Hj) by lia. rewrite <- (Hsym k Hk). lra.
    - rewrite <- (Hsym k Hk). lra. }
  split; [done|]. intros Hs. unfold applyNoiseModel.
  rewrite Heq, Hs. unfold or_1. destruct (Req_dec_T 1 0); [lra|].
  apply map_div_1.
Qed.

Lemma BIT_FLIP_fixes_symmetric_witness :
  perturb [1 / 2; 0; 0; 1 / 2] (mkNoise NoiseType.BIT_FLIP (1 / 2)) 2
  = [1 / 2; 0; 0; 1 / 2].
Proof.
  refine (proj1 (BIT_FLIP_fixes_symmetric [1 / 2; 0; 0; 1 / 2]
                   (mkNoise NoiseType.BIT_FLIP (1 / 2)) 2 _ _)).
  - reflexivity.
  - intros [|[|[|[|i]]]] Hi; simpl in *; try reflexivity; lia.
Defined.

End Channels.

(** C7. The cumulative error that the noise engine uses is
    [E = 1 - (1 - p) ^ max(1, gateCount)], in [0, 1] for a probability [p] in
    [0, 1]: the Depolarizing, PhaseDamping and PhaseFlip branches blend with
    the uniform vector at the rate [E], the AmplitudeDamping branch decays
    at the rate [E * 0.8] and the BitFlip branch flips at the rate
    [E * 0.4].  The exponent of an empty circuit is 1: [E] is then [p], and
    the engine does to the vector what it does for one gate. *)
Theorem totalError_is_depth_error (ideal : list R) (noise : NoiseConfig)
    (gateCount : nat) :
  (0 <= probability noise <= 1)%R →
  let p := probability noise in
  let states := length ideal in
  let E := (1 - (1 - p) ^ Nat.max 1 gateCount)%R in
  totalError p gateCount = E
  ∧ (0 <= E <= 1)%R
  ∧ (gateCount = 0%nat → E = p)
  ∧ perturb ideal noise 0 = perturb ideal noise 1
  ∧ (blends (noise_type noise) →
     perturb ideal noise gateCount
     = map (fun val => val * (1 - E) + 1 / INR states * E)%R ideal)
  ∧ (noise_type noise = NoiseType.AMPLITUDE_DAMPING →
     ∀ a rest, ideal = a :: rest →
       perturb ideal noise gateCount
       = (a + (1 - a) * (E * 0.8))%R
         :: map (fun v => v * (1 - E * 0.8))%R rest)
  ∧ (noise_type noise = NoiseType.BIT_FLIP →
     ∀ i, (i < states)%nat →
       nth i (perturb ideal noise gateCount) 0%R
       = (nth i ideal 0 * (1 - E * 0.4)
          + (if (states - 1 - i <? i)%nat
             then nth (states - 1 - i) (perturb ideal noise gateCount) 0
             else nth (states - 1 - i) ideal 0) * (E * 0.4))%R).
Proof.
  intros Hp p states E.
  assert (totalError p gateCount = E) as HE by reflexivity.
  split; [done|]. split; [rewrite <- HE; by apply totalError_range|].
  split; [intros ->; unfold E; simpl; lra|].
  split; [reflexivity|]. split; [|split].
  - intros Hk. by rewrite perturb_blend.
  - intros Hty a rest ->.
    by rewrite (AMPLITUDE_DAMPING_result a rest noise gateCount Hty).
  - intros Hty i Hi.
    destruct (BIT_FLIP_entries ideal (E * 0.4)%R (length ideal) ltac:(lia))
      as (_ & _ & Hlow).
    unfold perturb. rewrite Hty. fold p. rewrite HE. by apply Hlow.
Qed.

(** Depolarizing noise of probability 1/2 on no gate blends at the rate
    1/2. *)
Lemma totalError_is_depth_error_witness :
  perturb [1; 0]%R (mkNoise NoiseType.DEPOLARIZING (1 / 2)) 0
  = map (fun val => val * (1 - (1 - (1 - 1 / 2) ^ Nat.max 1 0))
                    + 1 / INR (length [1; 0]%R)
                      * (1 - (1 - 1 / 2) ^ Nat.max 1 0))%R [1; 0]%R.
Proof.
  refine (proj1 (proj2 (proj2 (proj2 (proj2
            (totalError_is_depth_error [1; 0]%R
               (mkNoise NoiseType.DEPOLARIZING (1 / 2)) 0 _))))) _).
  - simpl. lra.
  - left. reflexivity.
Defined.

(** ** More on the fidelity *)

Section FidelityFacts.
Local Open Scope R_scope.

Lemma overlap_comm (ideal noisy : list R) :
  overlap ideal noisy = overlap noisy ideal.
Proof.
  unfold overlap. revert noisy.
  induction ideal as [|a ideal IH]; intros [|b noisy]; simpl; try done.
  rewrite !sum_cons, IH. by rewrite (Rmult_comm a b).
Qed.

Lemma overlap_zero_iff (ideal noisy : list R) :
  length noisy = length ideal →
  Forall (Rle 0) ideal → Forall (Rle 0) noisy →
  overlap ideal noisy = 0 ↔ Forall2 (fun a b => a * b = 0) ideal noisy.
Proof.
  intros Hlen Hi. revert noisy Hlen.
  induction Hi as [|a ideal Ha Hi IH]; intros [|b noisy] Hlen Hn;
    simpl in *; try done.
  inversion Hn as [|? ? Hb Hn']; subst.
  destruct (overlap_le ideal noisy ltac:(lia) Hi Hn') as (H0 & _ & _).
  pose proof (sqrt_pos (a * b)) as Hs.
  assert (0 <= a * b) as Hab by nra.
  unfold overlap in *. simpl. rewrite sum_cons. split.
  - intros Hz. constructor.
    + apply sqrt_eq_0; [done | lra].
    + apply IH; [lia | done | lra].
  - intros Hall. inversion Hall as [|? ? ? ? Hab0 Hrest]; subst.
    apply IH in Hrest; [|lia|done]. rewrite Hab0, sqrt_0, Hrest. lra.
Qed.

(** X14. The fidelity does not depend on which of two vectors of the same
    length is called ideal, and for vectors with non-negative entries it is
    0 exactly when no index has a non-zero entry in both (disjoint
    supports). *)
Theorem fidelity_symmetric_zero_disjoint (ideal noisy : list R) :
  length noisy = length ideal →
  Forall (Rle 0) ideal → Forall (Rle 0) noisy →
  calculateFidelity ideal noisy = calculateFidelity noisy ideal
  ∧ (calculateFidelity ideal noisy = 0
     ↔ Forall2 (fun a b => a * b = 0) ideal noisy).
Proof.
  intros Hlen Hi Hn.
  rewrite (calculateFidelity_overlap ideal noisy) by done.
  rewrite (calculateFidelity_overlap noisy ideal) by done.
  split; [by rewrite overlap_comm|].
  rewrite <- (overlap_zero_iff ideal noisy Hlen Hi Hn).
  destruct (overlap_le ideal noisy Hlen Hi Hn) as (H0 & _ & _).
  set (o := overlap ideal noisy) in *.
  unfold Rmin. destruct (Rle_dec 1 (o * o)); split; intros Hz; nra.
Qed.

Lemma fidelity_symmetric_zero_disjoint_witness :
  calculateFidelity [1; 0] [0; 1] = calculateFidelity [0; 1] [1; 0].
Proof.
  refine (proj1 (fidelity_symmetric_zero_disjoint [1; 0] [0; 1] _ _ _)).
  - reflexivity.
  - repeat constructor; lra.
  - repeat constructor; lra.
Defined.

End FidelityFacts.

(** * The circuit editor (App.tsx) *)

(** The state updates that the editor passes to [setGates].  The identifier
    that [handleAddGate] draws with [Math.random] is the argument [newId];
    the arguments [qubit] and [time] of the source are [q] and [t] here. *)

Definition MAX_QUBITS : Z := 3.
Definition MAX_TIME_STEPS : Z := 10.

(** [prev => { filtered = prev.filter(...); ...; return [...filtered, gate] }];
    [%] is the remainder that takes the sign of the dividend. *)
Definition handleAddGate (newId : string) (q t : Z) (ty : GateType.t)
    (prev : list Gate) : list Gate :=
  let filtered :=
    List.filter (fun g => negb ((qubit g =? q)%Z && (time g =? t)%Z)) prev in
  let gate :=
    {| id := newId; type := ty; qubit := q;
       control := match ty with
                  | GateType.CNOT => Some (Z.rem (q + 1) MAX_QUBITS)
                  | _ => None
                  end;
       time := t |} in
  filtered ++ [gate].

(** [prev => prev.filter(g => g.id !== id)] *)
Definition handleRemoveGate (rid : string) (prev : list Gate) : list Gate :=
  List.filter (fun g => negb (String.eqb (id g) rid)) prev.

(** [loadPreset]: a known name replaces the circuit, any other name leaves
    it alone. *)
Definition loadPreset (name : string) (prev : list Gate) : list Gate :=
  if String.eqb name "bell" then
    [mkGate "1" GateType.H 0 None 0;
     mkGate "2" GateType.CNOT 1 (Some 0%Z) 1]
  else if String.eqb name "ghz" then
    [mkGate "1" GateType.H 0 None 0;
     mkGate "2" GateType.CNOT 1 (Some 0%Z) 1;
     mkGate "3" GateType.CNOT 2 (Some 1%Z) 2]
  else if String.eqb name "superposition" then
    [mkGate "1" GateType.H 0 None 0;
     mkGate "2" GateType.H 1 None 0;
     mkGate "3" GateType.H 2 None 0]
  else prev.

(** The circuits that the editor can hold: it starts empty, and every click
    adds a gate at a slot of the grid, removes the gates of an identifier,
    loads a preset or clears the circuit ([setGates([])]). *)
Inductive editor_reachable : list Gate → Prop :=
| reach_initial : editor_reachable []
| reach_add newId q t ty prev :
    editor_reachable prev →
    (0 <= q < MAX_QUBITS)%Z → (0 <= t < MAX_TIME_STEPS)%Z →
    editor_reachable (handleAddGate newId q t ty prev)
| reach_remove rid prev :
    editor_reachable prev → editor_reachable (handleRemoveGate rid prev)
| reach_preset name prev :
    editor_reachable prev → editor_reachable (loadPreset name prev)
| reach_clear prev :
    editor_reachable prev → editor_reachable [].

(** The slot of the grid that a gate occupies. *)
Definition slot (g : Gate) : Z * Z := (qubit g, time g).

(** What the editor guarantees of each gate: a slot of the grid, and for a
    CNOT gate a control qubit of the register other than the target. *)
Definition editor_gate (g : Gate) : Prop :=
  (0 <= qubit g < MAX_QUBITS)%Z ∧ (0 <= time g < MAX_TIME_STEPS)%Z
  ∧ match type g with
    | GateType.CNOT =>
        ∃ c, control g = Some c ∧ (0 <= c < MAX_QUBITS)%Z ∧ c ≠ qubit g
    | _ => True
    end.

Definition editor_circuit (gates : list Gate) : Prop :=
  NoDup (map slot gates) ∧ Forall editor_gate gates.

Section Editor.

Lemma filter_slots (f : Gate → bool) (gates : list Gate) (s : Z * Z) :
  s ∈ map slot (List.filter f gates) → s ∈ map slot gates.
Proof.
  induction gates as [|g gates IH]; simpl; [done|].
  destruct (f g); simpl.
  - rewrite !elem_of_cons. intros [->|Hin]; [by left | right; by apply IH].
  - intros Hin. apply elem_of_cons. right. by apply IH.
Qed.

Lemma filter_editor_circuit (f : Gate → bool) (gates : list Gate) :
  editor_circuit gates → editor_circuit (List.filter f gates).
Proof.
  intros [Hnd Hall]. split.
  - induction gates as [|g gates IH]; simpl in *; [done|].
    apply NoDup_cons in Hnd as [Hg Hnd]. inversion Hall; subst.
    destruct (f g); simpl; [|by apply IH].
    apply NoDup_cons. split; [|by apply IH].
    intros Hin. apply Hg. by eapply filter_slots.
  - induction Hall as [|g gates Hg _ IH]; simpl; [constructor|].
    apply NoDup_cons in Hnd as [_ Hnd].
    destruct (f g); [constructor 2; [done|] |]; by apply IH.
Qed.

Lemma filtered_slot_free (q t : Z) (prev : list Gate) :
  (q, t) ∉ map slot
    (List.filter (fun g => negb ((qubit g =? q)%Z && (time g =? t)%Z)) prev).
Proof.
  induction prev as [|g prev IH]; simpl; [apply not_elem_of_nil|].
  destruct (Z.eqb_spec (qubit g) q) as [Hq|Hq],
    (Z.eqb_spec (time g) t) as [Ht|Ht]; simpl; try done;
    rewrite not_elem_of_cons; (split; [|done]); unfold slot; congruence.
Qed.

Lemma next_qubit (q : Z) :
  (0 <= q < MAX_QUBITS)%Z →
  (0 <= Z.rem (q + 1) MAX_QUBITS < MAX_QUBITS)%Z
  ∧ Z.rem (q + 1) MAX_QUBITS ≠ q.
Proof.
  unfold MAX_QUBITS. intros Hq.
  assert (q = 0 ∨ q = 1 ∨ q = 2)%Z as Hcases by lia.
  destruct Hcases as [-> | [-> | ->]].
  - change (Z.rem (0 + 1) 3) with 1%Z. lia.
  - change (Z.rem (1 + 1) 3) with 2%Z. lia.
  - change (Z.rem (2 + 1) 3) with 0%Z. lia.
Qed.

Lemma handleAddGate_circuit (newId : string) (q t : Z) (ty : GateType.t)
    (prev : list Gate) :
  (0 <= q < MAX_QUBITS)%Z → (0 <= t < MAX_TIME_STEPS)%Z →
  editor_circuit prev → editor_circuit (handleAddGate newId q t ty prev).
Proof.
  intros Hq Ht Hprev. unfold handleAddGate.
  destruct (filter_editor_circuit
              (fun g => negb ((qubit g =? q)%Z && (time g =? t)%Z)) prev Hprev)
    as [Hnd Hall].
  split.
  - rewrite map_app. apply NoDup_app. split; [done|]. split.
    + intros s Hs Hin. simpl in Hin. apply list_elem_of_singleton in Hin.
      subst s. by apply (filtered_slot_free q t prev).
    + simpl. apply NoDup_singleton.
  - apply Forall_app. split; [done|]. constructor 2; [|constructor 1].
    split; [done|]. split; [done|]. simpl.
    destruct ty; try done.
    exists (Z.rem (q + 1) MAX_QUBITS). split; [done|]. by apply next_qubit.
Qed.

Lemma loadPreset_circuit (name : string) (prev : list Gate) :
  editor_circuit prev → editor_circuit (loadPreset name prev).
Proof.
  intros Hprev. unfold loadPreset.
  repeat (destruct (String.eqb name _); [|]); try done;
    (split;
     [simpl; repeat (apply NoDup_cons; split;
                       [rewrite ?not_elem_of_cons;
                        repeat split; try discriminate; apply not_elem_of_nil|]);
      apply NoDup_nil_2
     |repeat (constructor 2;
                [unfold editor_gate, MAX_QUBITS, MAX_TIME_STEPS; simpl;
                 repeat split; try lia; eauto with lia|]);
      constructor 1]).
Qed.

Lemma editor_reachable_circuit (gates : list Gate) :
  editor_reachable gates → editor_circuit gates.
Proof.
  induction 1 as [|newId q t ty prev _ IH Hq Ht|rid prev _ IH|name prev _ IH
                  |prev _ _].
  - split; [apply NoDup_nil_2 | constructor 1].
  - by apply handleAddGate_circuit.
  - by apply filter_editor_circuit.
  - by apply loadPreset_circuit.
  - split; [apply NoDup_nil_2 | constructor 1].
Qed.

End Editor.

Lemma filter_filter_neg (f : Gate → bool) (gates : list Gate) :
  List.filter f (List.filter (fun g => negb (f g)) gates) = [].
Proof.
  induction gates as [|g gates IH]; simpl; [done|].
  destruct (f g) eqn:E; simpl; [done|]. by rewrite E.
Qed.

Lemma filter_idem (f : Gate → bool) (gates : list Gate) :
  List.filter f (List.filter f gates) = List.filter f gates.
Proof.
  induction gates as [|g gates IH]; simpl; [done|].
  destruct (f g) eqn:E; simpl; [|done]. by rewrite E, IH.
Qed.

(** X15. Adding a gate at a slot replaces what the slot held: afterwards the
    new gate, placed last, is the only gate of its slot, the gates of the
    other slots are the previous ones in their order, and a CNOT gate gets
    the control [(qubit + 1) % 3], which for a qubit of the register is the
    next qubit (cyclically), a qubit of the register other than the target;
    a gate of another kind gets no control. *)
Theorem handleAddGate_replaces_slot (newId : string) (q t : Z)
    (ty : GateType.t) (prev : list Gate) :
  let at_slot := fun g => ((qubit g =? q)%Z && (time g =? t)%Z) in
  let result := handleAddGate newId q t ty prev in
  ∃ gate,
    List.filter at_slot result = [gate]
    ∧ last result = Some gate
    ∧ id gate = newId ∧ type gate = ty ∧ qubit gate = q ∧ time gate = t
    ∧ List.filter (fun g => negb (at_slot g)) result
      = List.filter (fun g => negb (at_slot g)) prev
    ∧ (ty = GateType.CNOT → control gate = Some (Z.rem (q + 1) 3))
    ∧ ((0 <= q < 3)%Z →
       Z.rem (q + 1) 3 = ((q + 1) mod 3)%Z
       ∧ (0 <= Z.rem (q + 1) 3 < 3)%Z ∧ Z.rem (q + 1) 3 ≠ q)
    ∧ (ty ≠ GateType.CNOT → control gate = None).
Proof.
  intros at_slot result. unfold result, handleAddGate.
  set (gate := {| id := newId; type := ty; qubit := q;
                  control := match ty with
                             | GateType.CNOT => Some (Z.rem (q + 1) MAX_QUBITS)
                             | _ => None
                             end;
                  time := t |}).
  assert (at_slot gate = true) as Hgate.
  { unfold at_slot, gate. simpl. by rewrite !Z.eqb_refl. }
  exists gate.
  split; [|split; [|repeat (split; [reflexivity|]); split; [|split; [|split]]]].
  - rewrite List.filter_app, (filter_filter_neg at_slot). simpl.
    by rewrite Hgate.
  - apply last_snoc.
  - rewrite List.filter_app, (filter_idem (fun g => negb (at_slot g))). simpl.
    rewrite Hgate. simpl. apply app_nil_r.
  - intros ->. reflexivity.
  - intros Hq. split; [|by apply next_qubit].
    apply Z.rem_mod_nonneg; lia.
  - intros Hty. unfold gate. simpl. by destruct ty.
Qed.

Lemma handleAddGate_replaces_slot_witness :
  (0 <= Z.rem (2 + 1) 3 < 3)%Z ∧ Z.rem (2 + 1) 3 ≠ 2%Z.
Proof.
  destruct (handleAddGate_replaces_slot "n" 2 4 GateType.CNOT [])
    as (gate & _ & _ & _ & _ & _ & _ & _ & _ & Hc & _).
  apply Hc. lia.
Defined.

Lemma handleRemoveGate_id (rid : string) (gates : list Gate) :
  Forall (fun g => id g ≠ rid) gates → handleRemoveGate rid gates = gates.
Proof.
  unfold handleRemoveGate. induction 1 as [|g gates Hg _ IH]; simpl; [done|].
  destruct (String.eqb_spec (id g) rid); simpl; [done|]. by rewrite IH.
Qed.

(** X16. Removing an identifier keeps exactly the gates with another
    identifier, in their order: the result is the circuit with the gates of
    that identifier left out (a part of the circuit in the order of the
    circuit, computed piece by piece), so removing the one gate that has the
    identifier joins what came before it and what came after it; nothing is
    removed when no gate has the identifier, and a circuit with one gate per
    slot stays one. *)
Theorem handleRemoveGate_removes_id (rid : string) (prev : list Gate) :
  (∀ g, g ∈ handleRemoveGate rid prev ↔ g ∈ prev ∧ id g ≠ rid)
  ∧ sublist (handleRemoveGate rid prev) prev
  ∧ (∀ before after, prev = before ++ after →
       handleRemoveGate rid prev
       = handleRemoveGate rid before ++ handleRemoveGate rid after)
  ∧ (∀ before g after,
       prev = before ++ g :: after → id g = rid →
       Forall (fun g => id g ≠ rid) before →
       Forall (fun g => id g ≠ rid) after →
       handleRemoveGate rid prev = before ++ after)
  ∧ (Forall (fun g => id g ≠ rid) prev → handleRemoveGate rid prev = prev)
  ∧ handleRemoveGate rid (handleRemoveGate rid prev) = handleRemoveGate rid prev
  ∧ (editor_circuit prev → editor_circuit (handleRemoveGate rid prev)).
Proof.
  split; [|split; [|split; [|split; [|split; [|split]]]]].
  - intros g. unfold handleRemoveGate.
    rewrite !list_elem_of_In, List.filter_In.
    destruct (String.eqb_spec (id g) rid); simpl; split;
      intros [? ?]; split; done.
  - unfold handleRemoveGate. induction prev as [|g gates IH]; simpl.
    + constructor.
    + destruct (negb _); [by apply sublist_skip | by apply sublist_cons].
  - intros before after ->. unfold handleRemoveGate. apply List.filter_app.
  - intros before g after -> Hg Hb Ha.
    unfold handleRemoveGate. rewrite List.filter_app. simpl.
    destruct (String.eqb_spec (id g) rid) as [_|Hne]; [simpl | done].
    fold (handleRemoveGate rid before). fold (handleRemoveGate rid after).
    by rewrite !handleRemoveGate_id.
  - apply handleRemoveGate_id.
  - apply filter_idem.
  - apply filter_editor_circuit.
Qed.

Lemma handleRemoveGate_removes_id_witness :
  handleRemoveGate "b"
    [mkGate "a" GateType.H 0 None 0; mkGate "b" GateType.X 1 None 0;
     mkGate "c" GateType.H 2 None 0]
  = [mkGate "a" GateType.H 0 None 0] ++ [mkGate "c" GateType.H 2 None 0].
Proof.
  refine (proj1 (proj2 (proj2 (proj2 (handleRemoveGate_removes_id "b"
            [mkGate "a" GateType.H 0 None 0; mkGate "b" GateType.X 1 None 0;
             mkGate "c" GateType.H 2 None 0]))))
            [mkGate "a" GateType.H 0 None 0] (mkGate "b" GateType.X 1 None 0)
            [mkGate "c" GateType.H 2 None 0] _ _ _ _).
  - reflexivity.
  - reflexivity.
  - constructor; [|constructor]. simpl. discriminate.
  - constructor; [|constructor]. simpl. discriminate.
Defined.

(** The slots of the grid. *)
Definition grid : list (Z * Z) :=
  list_prod [0; 1; 2]%Z [0; 1; 2; 3; 4; 5; 6; 7; 8; 9]%Z.

Lemma slot_in_grid (g : Gate) : editor_gate g → slot g ∈ grid.
Proof.
  unfold editor_gate, MAX_QUBITS, MAX_TIME_STEPS, slot, grid.
  intros (Hq & Ht & _). apply list_elem_of_In, in_prod.
  - simpl. lia.
  - simpl. lia.
Qed.

Lemma editor_circuit_length (gates : list Gate) :
  editor_circuit gates → length gates ≤ 30.
Proof.
  intros [Hnd Hall].
  rewrite <- (length_map slot gates).
  change 30 with (length grid).
  apply submseteq_length, NoDup_submseteq; [done|].
  intros s Hs. apply list_elem_of_In, in_map_iff in Hs as (g & <- & Hg).
  apply slot_in_grid. rewrite Forall_forall in Hall.
  by apply Hall, list_elem_of_In.
Qed.

(** X17. Whatever the user clicks, the editor holds a circuit that the
    simulator accepts: at most one gate per slot of the 3 x 10 grid (hence
    at most 30 gates), every target on the register, every CNOT gate with a
    control on the register other than its target; for a noise probability
    in [0, 1] the simulation of this circuit on [MAX_QUBITS] qubits returns
    a result with 8 ideal probabilities and a fidelity in [0, 1]. *)
Theorem editor_circuits_simulate (gates : list Gate) (noise : NoiseConfig) :
  editor_reachable gates → (0 <= probability noise <= 1)%R →
  editor_circuit gates
  ∧ length gates ≤ 30
  ∧ ∃ result,
      simulate (Z.to_nat MAX_QUBITS) gates noise = Some result
      ∧ size (probabilities result) = 8
      ∧ size (noisyProbabilities result) = 8
      ∧ (0 <= fidelity result <= 1)%R.
Proof.
  intros Hreach Hp.
  pose proof (editor_reachable_circuit gates Hreach) as Hc.
  split; [done|]. split; [by apply editor_circuit_length|].
  destruct (simulate_inside 3 gates noise) as
    (result & ip & nd & Hrun & _ & _ & _ & _ & _ & _ & Hs1 & Hs2 & _ & Hf & _).
  - lia.
  - destruct Hc as [_ Hall]. eapply Forall_impl; [exact Hall|].
    intros g (Hq & _). unfold valid_gate, MAX_QUBITS in *. simpl. lia.
  - done.
  - exists result. done.
Qed.

Lemma editor_circuits_simulate_witness :
  length (handleAddGate "n" 1 2 GateType.CNOT []) ≤ 30.
Proof.
  refine (proj1 (proj2 (editor_circuits_simulate
                          (handleAddGate "n" 1 2 GateType.CNOT [])
                          (mkNoise NoiseType.DEPOLARIZING 0) _ _))).
  - apply reach_add; [apply reach_initial | |];
      unfold MAX_QUBITS, MAX_TIME_STEPS; lia.
  - simpl. lra.
Defined.

(** ** Depth and error, and the empty circuit *)

Section Depth.
Local Open Scope R_scope.

Lemma pow_antitone (x : R) (n m : nat) :
  0 <= x <= 1 → (n ≤ m)%nat → x ^ m <= x ^ n.
Proof.
  intros Hx Hnm. replace m with (n + (m - n))%nat by lia.
  rewrite pow_add.
  assert (0 <= x ^ n) by (apply pow_le; lra).
  assert (x ^ (m - n) <= 1).
  { pose proof (pow_incr x 1 (m - n)) as Hle.
    rewrite pow1 in Hle. apply Hle. lra. }
  nra.
Qed.

(** X18. The cumulative error grows with the noise probability and with the
    number of gates: for probabilities [p <= p'] in [0, 1] and gate counts
    [g <= g'] the error of [(p, g)] is at most the error of [(p', g')]; an
    empty circuit has the error of a circuit of one gate. *)
Theorem totalError_monotone (p p' : R) (g g' : nat) :
  0 <= p → p <= p' → p' <= 1 → (g ≤ g')%nat →
  totalError p g <= totalError p' g'
  ∧ totalError p 0 = totalError p 1.
Proof.
  intros H0 Hpp H1 Hg. split; [|done]. unfold totalError.
  assert ((1 - p') ^ Nat.max 1 g' <= (1 - p) ^ Nat.max 1 g'); [|].
  { apply pow_incr. lra. }
  assert ((1 - p) ^ Nat.max 1 g' <= (1 - p) ^ Nat.max 1 g).
  { apply pow_antitone; [lra | lia]. }
  lra.
Qed.

Lemma totalError_monotone_witness :
  totalError (1 / 4) 1 <= totalError (1 / 2) 3.
Proof.
  refine (proj1 (totalError_monotone (1 / 4) (1 / 2) 1 3 _ _ _ _)).
  - lra.
  - lra.
  - lra.
  - lia.
Defined.






End Depth.
